(** * Offline sync queue of the POS front end

    Shallow embedding of [OfflineSyncService] (services/offlineSync.ts):
    the pending-operation queue kept in IndexedDB and mirrored in memory,
    its replay loop and its bounded retry.

    Conventions of the embedding.
    - The IndexedDB object store [syncQueue] (keyPath [id]) is the field
      [disk]: records kept in ascending key order, which is the order in
      which [getAll()] yields them.  Keys are the ids, ASCII strings, so
      the order of their code units is [String.compare].  [add] refuses a
      key that is already present; [delete] of an absent key succeeds.
      What is written to the store is a structured clone, i.e. a value,
      not a reference.
    - The elements of the in-memory array [this.syncQueue] are JavaScript
      objects.  [getSyncQueue] copies the array, not the objects, and
      [syncWhenOnline] mutates [item.retries] through that copy.  Hence the
      objects live in a [heap] and the array holds references into it.
    - Each asynchronous method runs to completion before the next one
      starts: the service awaits its open, add, put, get and delete
      requests.  The one request it does not await is the [getAll] of
      [loadSyncQueue]: [init] resolves as soon as the request is issued,
      and the array is assigned later, when the request is answered.  The
      field [loading] counts the requests still pending.  A pending
      request is answered at some later point of its own
      ([loadSyncQueue_onsuccess]), and at the latest before the next add
      or delete request is, since a read-write transaction on the store
      starts only after the read-only ones created before it ([settle]).
      The [getAll] request itself is taken to succeed.
    - Answers of the host are arguments: the clock, the random source,
      whether a storage request succeeds, the connectivity flag, and the
      caller's submit function, which is taken to answer as a function of
      the item it is given.
    - [retries] and [timestamp] are JavaScript numbers holding small
      non-negative integers; they are embedded as [N].
    - Not part of the embedding: the console output and the [online]
      listener that [syncWhenOnline] registers when it is called offline.
      The object stores that [onupgradeneeded] creates are taken to
      exist, empty, from the start. *)

From Stdlib Require Import NArith String Ascii DecimalString OrderedTypeEx Lia.
From Stdlib Require DecimalN DecimalPos.
From stdpp Require Import base tactics option list strings sorting gmap.

Local Open Scope N_scope.

(** ** Data model *)

Inductive SyncType := ty_transaction | ty_inventory | ty_customer | ty_product.
Inductive SyncAction := act_create | act_update | act_delete.

(** Rejections a promise of the service can carry. *)
Inductive SyncError :=
| OpenError              (* indexedDB.open: request.onerror *)
| DatabaseNotInitialized (* new Error('Database not initialized') *)
| RequestError           (* request.onerror of add / delete *)
| CallerError.           (* whatever the caller's function threw *)

Inductive outcome (A : Type) :=
| Resolved (a : A)
| RejectedWith (e : SyncError).
Arguments Resolved {A} a.
Arguments RejectedWith {A} e.

Record IDBDatabase := { dbName : string; version : N }.

Definition posOfflineDb : IDBDatabase :=
  {| dbName := "pos-offline-db"%string; version := 1 |}.

(** Rejections of [storeOffline] and [getOffline]. *)
Inductive StoreError :=
| InitError (e : SyncError)  (* the lazy [init] rejected *)
| NotInitialized             (* new Error('Database not initialized') *)
| NotFoundError              (* transaction() on a store that does not exist *)
| DataError                  (* put() of an object without a key *)
| StoreRequestError.         (* request.onerror *)

Inductive stored (A : Type) :=
| Done (a : A)
| Failed (e : StoreError).
Arguments Done {A} a.
Arguments Failed {A} e.

(** The type of [data: any], which the queue never inspects. *)
Class Payload := Data : Type.

(** A reference to a JavaScript object: its index in the heap. *)
Abbreviation ref := nat (only parsing).

Section Service.

Context {payload : Payload}.

Record PendingSync := mkPendingSync {
  id : string;
  type : SyncType;
  action : SyncAction;
  data : Data;
  timestamp : N;
  retries : N
}.

Record service := mkService {
  disk : list PendingSync;
  db : option IDBDatabase;
  heap : list PendingSync;
  syncQueue : list ref;
  loading : nat   (* [getAll] requests of [loadSyncQueue] not answered yet *)
}.

(** ** The object store *)

Definition key_lt (a b : PendingSync) : Prop := String.ltb (id a) (id b) = true.

Definition store_has (k : string) (d : list PendingSync) : bool :=
  bool_decide (k ∈ id <$> d).

Fixpoint store_insert (r : PendingSync) (d : list PendingSync) : list PendingSync :=
  match d with
  | [] => [r]
  | x :: d' => if String.ltb (id r) (id x) then r :: x :: d' else x :: store_insert r d'
  end.

(** [store.add(r)]: a ConstraintError when the key exists. *)
Definition store_add (r : PendingSync) (d : list PendingSync) : option (list PendingSync) :=
  if store_has (id r) d then None else Some (store_insert r d).

(** [store.delete(k)] *)
Definition store_delete (k : string) (d : list PendingSync) : list PendingSync :=
  filter (λ r, id r ≠ k) d.

(** [store.getAll()] *)
Definition store_getAll (d : list PendingSync) : list PendingSync := d.

(** ** Heap of objects *)

Definition deref (h : list PendingSync) (l : ref) : option PendingSync := h !! l.

(** [item.id], read through the reference. *)
Definition id_of (h : list PendingSync) (l : ref) : option string := id <$> h !! l.

Definition incr_retries (o : PendingSync) : PendingSync :=
  {| id := id o; type := type o; action := action o; data := data o;
     timestamp := timestamp o; retries := retries o + 1 |}.

(** [item.retries++] on the object behind a reference. *)
Definition bump (l : ref) (s : service) : service :=
  {| disk := disk s; db := db s; heap := alter incr_retries l (heap s);
     syncQueue := syncQueue s; loading := loading s |}.

(** ** The service *)

(** [new OfflineSyncService()] over an existing database. *)
Definition construct (d : list PendingSync) : service :=
  {| disk := d; db := None; heap := []; syncQueue := []; loading := 0 |}.

(** [loadSyncQueue]: the call issues a [getAll] request on the store and
    returns; the array is not touched yet. *)
Definition loadSyncQueue (s : service) : service :=
  match db s with
  | None => s
  | Some _ =>
      {| disk := disk s; db := db s; heap := heap s; syncQueue := syncQueue s;
         loading := S (loading s) |}
  end.

(** [request.onsuccess] of [loadSyncQueue]: a pending request is answered
    and the array becomes the freshly deserialised records.  (No add or
    delete request is answered between the request and its answer, so
    these are the records of the store as it is.) *)
Definition loadSyncQueue_onsuccess (s : service) : service :=
  match loading s with
  | O => s
  | S n =>
      let result := store_getAll (disk s) in
      {| disk := disk s; db := db s; heap := heap s ++ result;
         syncQueue := seq (length (heap s)) (length result); loading := n |}
  end.

(** What precedes the answer to a request of a read-write transaction on
    the store: every pending [getAll] is answered. *)
Definition settle (s : service) : service :=
  Nat.iter (loading s) loadSyncQueue_onsuccess s.

(** [init]; [opens] tells whether the open request succeeds.  On success
    the handle is stored, [loadSyncQueue] is called and, without waiting
    for its request, the promise resolves. *)
Definition init (opens : bool) (s : service) : outcome unit * service :=
  if opens then
    (Resolved (),
     loadSyncQueue {| disk := disk s; db := Some posOfflineDb; heap := heap s;
                      syncQueue := syncQueue s; loading := loading s |})
  else (RejectedWith OpenError, s).

(** What the host answers during one [addToSyncQueue]. *)
Record host := mkHost {
  opens : bool;     (* the lazy open request succeeds *)
  now1 : N;         (* Date.now() in the id *)
  random36 : string;(* Math.random().toString(36).substr(2, 9) *)
  now2 : N;         (* Date.now() in the timestamp *)
  writes : bool     (* the add request is not failed by the backend *)
}.

(** The id: [Date.now()] in decimal, a dash, the random suffix. *)
Definition decimal (n : N) : string := NilZero.string_of_uint (N.to_uint n).

Definition make_id (h : host) : string :=
  (decimal (now1 h) ++ "-" ++ random36 h)%string.

(** The object literal [syncItem] of [addToSyncQueue]. *)
Definition syncItem (h : host) (ty : SyncType) (act : SyncAction) (dat : Data)
    : PendingSync :=
  {| id := make_id h; type := ty; action := act; data := dat;
     timestamp := now2 h; retries := 0 |}.

(** [addToSyncQueue]: lazy [init], then the add request, which is
    answered after the pending loads; the object is pushed on the array
    when the request succeeds. *)
Definition addToSyncQueue (h : host) (ty : SyncType) (act : SyncAction) (dat : Data)
    (s : service) : outcome string * service :=
  let '(r0, s1) :=
    match db s with
    | None => init (opens h) s
    | Some _ => (Resolved (), s)
    end in
  match r0 with
  | RejectedWith e => (RejectedWith e, s1)
  | Resolved _ =>
      match db s1 with
      | None => (RejectedWith DatabaseNotInitialized, s1)
      | Some _ =>
          let s2 := settle s1 in
          if writes h then
            match store_add (syncItem h ty act dat) (disk s2) with
            | Some d' =>
                (Resolved (id (syncItem h ty act dat)),
                 {| disk := d'; db := db s2; heap := heap s2 ++ [syncItem h ty act dat];
                    syncQueue := syncQueue s2 ++ [length (heap s2)];
                    loading := loading s2 |})
            | None => (RejectedWith RequestError, s2)
            end
          else (RejectedWith RequestError, s2)
      end
  end.

(** [getSyncQueue]: a copy of the array; its elements are the same
    objects. *)
Definition getSyncQueue (s : service) : list ref := syncQueue s.

(** The objects the array returned by [getSyncQueue] refers to. *)
Definition contents (s : service) : list PendingSync :=
  omap (deref (heap s)) (getSyncQueue s).

(** [removeFromSyncQueue]; [deletes] tells whether the delete request
    succeeds.  The request is answered after the pending loads. *)
Definition removeFromSyncQueue (deletes : bool) (k : string) (s : service)
    : outcome unit * service :=
  match db s with
  | None => (Resolved (), s)
  | Some _ =>
      let s1 := settle s in
      if deletes then
        (Resolved (),
         {| disk := store_delete k (disk s1); db := db s1; heap := heap s1;
            syncQueue := filter (λ l, id_of (heap s1) l ≠ Some k) (syncQueue s1);
            loading := loading s1 |})
      else (RejectedWith RequestError, s1)
  end.

(** One iteration of the [for] loop of [syncWhenOnline].  The second
    component records the argument of every call of [syncFunction].
    A rejection of [removeFromSyncQueue] inside the [try] block lands in
    the [catch] block like one of [syncFunction].  (The array only holds
    references of live objects; the first branch is never taken.)  A load
    that is answered while the loop runs is answered, in this embedding,
    right before the first delete request, which is the latest point at
    which it can be: until then the loop reads and writes only [item],
    which the load does not touch. *)
Definition sync_item (syncFunction : PendingSync -> outcome bool)
    (deletes : string -> bool) (acc : service * list PendingSync) (l : ref)
    : service * list PendingSync :=
  let '(s, calls) := acc in
  match deref (heap s) l with
  | None => (s, calls)
  | Some item =>
      let calls' := calls ++ [item] in
      match syncFunction item with
      | Resolved true =>
          match removeFromSyncQueue (deletes (id item)) (id item) s with
          | (Resolved _, s') => (s', calls')
          | (RejectedWith _, s') => (bump l s', calls')
          end
      | Resolved false =>
          let s1 := bump l s in
          if 5 <? retries item + 1 then
            match removeFromSyncQueue (deletes (id item)) (id item) s1 with
            | (Resolved _, s') => (s', calls')
            | (RejectedWith _, s') => (bump l s', calls')
            end
          else (s1, calls')
      | RejectedWith _ => (bump l s, calls')
      end
  end.

(** [syncWhenOnline]; [online] is [navigator.onLine] at the call and
    [deletes k] tells whether the delete request for key [k] succeeds.
    The promise it returns always resolves. *)
Definition syncWhenOnline (online : bool) (syncFunction : PendingSync -> outcome bool)
    (deletes : string -> bool) (s : service) : service * list PendingSync :=
  if online then
    let queue := getSyncQueue s in
    match queue with
    | [] => (s, [])
    | _ => fold_left (sync_item syncFunction deletes) queue (s, [])
    end
  else (s, []).

(** A page reload: the JavaScript state is lost, the database stays, and
    importing the module constructs the service and calls [init].  This
    is the state in which that [init] resolves: the load is pending. *)
Definition reload (opens : bool) (s : service) : service :=
  snd (init opens (construct (disk s))).

(** Repeated calls of [syncWhenOnline] under the same host answers. *)
Fixpoint replays (n : nat) (syncFunction : PendingSync -> outcome bool)
    (deletes : string -> bool) (s : service) : service :=
  match n with
  | O => s
  | S n' => replays n' syncFunction deletes (fst (syncWhenOnline true syncFunction deletes s))
  end.

(** * Vocabulary of the statements *)

(** ** One pass of the replay loop, summarised per item

    For an item read as [o] at its turn: whether the pass deletes its
    record, and how often it executes [item.retries++]. *)

Definition attempt_removes (f : PendingSync -> outcome bool) (d : string -> bool)
    (o : PendingSync) : bool :=
  match f o with
  | Resolved true => d (id o)
  | Resolved false => (5 <? retries o + 1) && d (id o)
  | RejectedWith _ => false
  end.

Definition attempt_bumps (f : PendingSync -> outcome bool) (d : string -> bool)
    (o : PendingSync) : nat :=
  match f o with
  | Resolved true => if d (id o) then 0%nat else 1%nat
  | Resolved false => if (5 <? retries o + 1) && negb (d (id o)) then 2%nat else 1%nat
  | RejectedWith _ => 1%nat
  end.

Definition after_attempt f d (o : PendingSync) : PendingSync :=
  Nat.iter (attempt_bumps f d o) incr_retries o.

Definition removed_ids f d (h : list PendingSync) (q : list ref) : list string :=
  omap (λ l, o ← h !! l; if attempt_removes f d o then Some (id o) else None) q.

(** The number of further passes, all resolving [false], that an object
    with retry counter [r] stays queued for. *)
Definition passes_left (r : N) : nat := N.to_nat (5 - r).

(** ** Consistent and well-formed states

    In every state every queued object is, up to its retry counter, a
    record of the store, keys are not repeated, the store is in key order
    and its records carry the counter they were written with.  The array
    holds all records of the store once the database is open, unless it
    is still the empty array of a start whose load is pending. *)

Definition reset_retries (o : PendingSync) : PendingSync :=
  {| id := id o; type := type o; action := action o; data := data o;
     timestamp := timestamp o; retries := 0 |}.

Record consistent (s : service) : Prop := {
  co_closed : db s = None -> syncQueue s = [] ∧ loading s = 0%nat;
  co_mirror : ∀ l, l ∈ syncQueue s ->
    ∃ o, heap s !! l = Some o ∧ reset_retries o ∈ disk s;
  co_ids : NoDup (id_of (heap s) <$> syncQueue s);
  co_cover : db s ≠ None -> loading s = 0%nat ∨ syncQueue s ≠ [] ->
    ∀ r, r ∈ disk s -> Some (id r) ∈ id_of (heap s) <$> syncQueue s;
  co_sorted : StronglySorted key_lt (disk s);
  co_zero : Forall (λ r, retries r = 0) (disk s)
}.

(** A state is well formed when it is consistent and no load is pending:
    the array mirrors the store. *)
Record wf (s : service) : Prop := {
  wf_closed : db s = None -> syncQueue s = [];
  wf_mirror : ∀ l, l ∈ syncQueue s ->
    ∃ o, heap s !! l = Some o ∧ reset_retries o ∈ disk s;
  wf_ids : NoDup (id_of (heap s) <$> syncQueue s);
  wf_cover : db s ≠ None -> ∀ r, r ∈ disk s ->
    Some (id r) ∈ id_of (heap s) <$> syncQueue s;
  wf_sorted : StronglySorted key_lt (disk s);
  wf_zero : Forall (λ r, retries r = 0) (disk s);
  wf_settled : loading s = 0%nat
}.

(** ** States the service can reach from a first start *)

Inductive reachable : service -> Prop :=
| reach_new : reachable (construct [])
| reach_init opens s : reachable s -> reachable (snd (init opens s))
| reach_loaded s : reachable s -> reachable (loadSyncQueue_onsuccess s)
| reach_add h ty act dat s :
    reachable s -> reachable (snd (addToSyncQueue h ty act dat s))
| reach_remove deletes k s :
    reachable s -> reachable (snd (removeFromSyncQueue deletes k s))
| reach_sync online f d s :
    reachable s -> reachable (fst (syncWhenOnline online f d s))
| reach_reload s : reachable s -> reachable (construct (disk s)).

(** ** Sequences of enqueue and remove calls *)

Inductive call :=
| CallAdd (h : host) (ty : SyncType) (act : SyncAction) (dat : Data)
| CallRemove (deletes : bool) (k : string).

(** What a call did to the queue, as its caller sees it: an operation was
    enqueued, or an id was removed. *)
Inductive event :=
| Added (o : PendingSync)
| Removed (k : string).

Definition perform (c : call) (s : service) : service * list event :=
  match c with
  | CallAdd h ty act dat =>
      match addToSyncQueue h ty act dat s with
      | (Resolved _, s') => (s', [Added (syncItem h ty act dat)])
      | (RejectedWith _, s') => (s', [])
      end
  | CallRemove deletes k =>
      match removeFromSyncQueue deletes k s with
      | (Resolved _, s') => (s', [Removed k])
      | (RejectedWith _, s') => (s', [])
      end
  end.

Fixpoint run (cs : list call) (s : service) : service * list event :=
  match cs with
  | [] => (s, [])
  | c :: cs' =>
      let '(s1, e1) := perform c s in
      let '(s2, e2) := run cs' s1 in
      (s2, e1 ++ e2)
  end.

Fixpoint removed_in (log : list event) : list string :=
  match log with
  | [] => []
  | Added _ :: log' => removed_in log'
  | Removed k :: log' => k :: removed_in log'
  end.

(** The enqueued operations whose id no later call removes, in the order
    of their enqueue calls. *)
Fixpoint survivors (log : list event) : list PendingSync :=
  match log with
  | [] => []
  | Added o :: log' =>
      if decide (id o ∈ removed_in log') then survivors log' else o :: survivors log'
  | Removed _ :: log' => survivors log'
  end.

(** A storage request of the call fails: the lazy open, the add itself,
    or the add because the key is taken. *)
Definition storage_fails (h : host) (s : service) : Prop :=
  (db s = None ∧ opens h = false) ∨ writes h = false ∨
  store_has (make_id h) (disk s) = true.

(** * The entity caches, the hook and the indicator *)

(** ** [storeOffline] and [getOffline]

    The database has five object stores, all with keyPath [id], created
    by the first open and never deleted: the queue's store and one cache
    per entity type.  A cache that was never written is empty.  A cache
    holds the stored objects under their keys; ids are strings, as
    everywhere in the application. *)

Definition entityStoreNames : list string :=
  ["transactions"; "inventory"; "customers"; "products"]%string.

(** The [data: any] of [storeOffline]: the object, and its [id] property
    when it has one. *)
Record entity := mkEntity {
  entity_id : option string;
  entity_body : Data
}.

Record offline := mkOffline {
  queue : service;
  caches : gmap string (list (string * Data))
}.

Definition cache_of (st : offline) (storeName : string) : list (string * Data) :=
  default [] (caches st !! storeName).

(** [objectStore.put]: insert, or overwrite the object under the key. *)
Fixpoint cache_put (k : string) (v : Data) (c : list (string * Data))
    : list (string * Data) :=
  match c with
  | [] => [(k, v)]
  | (k', v') :: c' =>
      if String.eqb k k' then (k, v) :: c'
      else if String.ltb k k' then (k, v) :: (k', v') :: c'
      else (k', v') :: cache_put k v c'
  end.

(** [store.get(id)]: the object under the key, if any. *)
Fixpoint cache_get (k : string) (c : list (string * Data)) : option Data :=
  match c with
  | [] => None
  | (k', v') :: c' => if String.eqb k k' then Some v' else cache_get k c'
  end.

(** The lazy [init] at the head of [storeOffline] and [getOffline]. *)
Definition ensure_open (opens : bool) (st : offline) : stored unit * offline :=
  match db (queue st) with
  | Some _ => (Done (), st)
  | None =>
      match init opens (queue st) with
      | (Resolved _, q) => (Done (), {| queue := q; caches := caches st |})
      | (RejectedWith e, q) => (Failed (InitError e), {| queue := q; caches := caches st |})
      end
  end.

(** [storeOffline]; [opens] and [puts] tell whether the open and the put
    request succeed.  The result is [None] for the store name
    ["syncQueue"]: writing arbitrary objects into the queue's own store
    is outside this embedding, whose queue store holds operations only. *)
Definition storeOffline (opens puts : bool) (storeName : string) (data : entity)
    (st : offline) : option (stored unit * offline) :=
  if decide (storeName = "syncQueue"%string) then None
  else Some
    match ensure_open opens st with
    | (Failed e, st1) => (Failed e, st1)
    | (Done _, st1) =>
        match db (queue st1) with
        | None => (Failed NotInitialized, st1)
        | Some _ =>
            if decide (storeName ∈ entityStoreNames) then
              match entity_id data with
              | None => (Failed DataError, st1)
              | Some k =>
                  if puts then
                    (Done (),
                     {| queue := queue st1;
                        caches := <[storeName :=
                                     cache_put k (entity_body data) (cache_of st1 storeName)]>
                                  (caches st1) |})
                  else (Failed StoreRequestError, st1)
              end
            else (Failed NotFoundError, st1)
        end
    end.

(** What [getOffline] resolves with: one object or [undefined], or the
    array of all objects of the store, in key order. *)
Inductive fetched :=
| OneEntity (o : option Data)
| AllEntities (os : list Data)
| OneOperation (o : option PendingSync)
| AllOperations (os : list PendingSync).

(** [getOffline]; [key_arg] is the optional argument [id].  [if (id)] is false for
    [undefined] and for the empty string. *)
Definition getOffline (opens reads : bool) (storeName : string) (key_arg : option string)
    (st : offline) : stored fetched * offline :=
  match ensure_open opens st with
  | (Failed e, st1) => (Failed e, st1)
  | (Done _, st1) =>
      match db (queue st1) with
      | None => (Failed NotInitialized, st1)
      | Some _ =>
          let key :=
            match key_arg with
            | Some k => if String.eqb k "" then None else Some k
            | None => None
            end in
          if decide (storeName = "syncQueue"%string) then
            if reads then
              match key with
              | Some k =>
                  (Done (OneOperation
                           (List.find (λ r, String.eqb k (id r)) (disk (queue st1)))),
                   st1)
              | None => (Done (AllOperations (store_getAll (disk (queue st1)))), st1)
              end
            else (Failed StoreRequestError, st1)
          else if decide (storeName ∈ entityStoreNames) then
            if reads then
              match key with
              | Some k => (Done (OneEntity (cache_get k (cache_of st1 storeName))), st1)
              | None => (Done (AllEntities (snd <$> cache_of st1 storeName)), st1)
              end
            else (Failed StoreRequestError, st1)
          else (Failed NotFoundError, st1)
      end
  end.

(** A fresh page over an existing database. *)
Definition construct_offline (d : list PendingSync)
    (c : gmap string (list (string * Data))) : offline :=
  {| queue := construct d; caches := c |}.

(** ** The hook and the indicator *)

(** [updatePendingSyncs] of [useOfflineSync]: the value the hook stores
    in [pendingSyncs] at each poll. *)
Definition updatePendingSyncs (s : service) : nat := length (getSyncQueue s).

(** What [OfflineIndicator] renders. *)
Inductive rendering :=
| RenderNothing                  (* return null *)
| OfflineBanner (text : string)
| SyncingBanner (text : string)
| EmptyBox.                      (* the outer div around null *)

Definition OfflineIndicator (isOnline : bool) (pendingSyncs : nat) : rendering :=
  if isOnline && (pendingSyncs =? 0)%nat then RenderNothing
  else if negb isOnline then
    OfflineBanner "Offline Mode - Changes will sync when online"
  else if (0 <? pendingSyncs)%nat then
    SyncingBanner
      ("Syncing " ++ decimal (N.of_nat pendingSyncs) ++ " pending "
         ++ (if (pendingSyncs =? 1)%nat then "change" else "changes") ++ "...")%string
  else EmptyBox.

End Service.

(** * A concrete point of sale

    Payloads are JSON texts.  Three mutations are queued while offline on
    a first start: a sale, a stock update and a customer deletion. *)

Module Shop.

#[export] Instance json_text : Payload := string.

Definition answers (now : N) (rnd : string) : host :=
  {| opens := true; now1 := now; random36 := rnd; now2 := now; writes := true |}.

(** The first start, over an empty database: the module is imported and
    its [init] has resolved; then the load is answered. *)
Definition imported : service := snd (init true (construct [])).
Definition started : service := loadSyncQueue_onsuccess imported.

Definition sale (s : service) :=
  addToSyncQueue (answers 1700000000000 "k3x9ab0q1") ty_transaction act_create
    "{total: 12}" s.
Definition stock (s : service) :=
  addToSyncQueue (answers 1700000000007 "a1b2cd3e4") ty_inventory act_update
    "{sku: 7, qty: 3}" s.
Definition customer (s : service) :=
  addToSyncQueue (answers 1700000000012 "zz81mma0p") ty_customer act_delete
    "{id: 44}" s.

Definition opA : PendingSync :=
  syncItem (answers 1700000000000 "k3x9ab0q1") ty_transaction act_create "{total: 12}".
Definition opB : PendingSync :=
  syncItem (answers 1700000000007 "a1b2cd3e4") ty_inventory act_update "{sku: 7, qty: 3}".
Definition opC : PendingSync :=
  syncItem (answers 1700000000012 "zz81mma0p") ty_customer act_delete "{id: 44}".

Definition one : service := snd (sale started).
Definition three : service := snd (customer (snd (stock one))).

Definition rejects_all (x : PendingSync) : outcome bool := Resolved false.
Definition accepts_all (x : PendingSync) : outcome bool := Resolved true.
Definition throws (x : PendingSync) : outcome bool := RejectedWith CallerError.
Definition rejects_B (x : PendingSync) : outcome bool :=
  Resolved (negb (String.eqb (id x) (id opB))).
Definition store_ok (k : string) : bool := true.

(** The same three mutations issued within one millisecond. *)
Definition burst : service :=
  snd (addToSyncQueue (answers 1700000000000 "a1b2cd3e4") ty_customer act_delete "{id: 44}"
    (snd (addToSyncQueue (answers 1700000000000 "k3x9ab0q1") ty_inventory act_update
            "{sku: 7, qty: 3}"
       (snd (addToSyncQueue (answers 1700000000000 "zz81mma0p") ty_transaction act_create
               "{total: 12}" started))))).

(** A service that is constructed over a store holding one record and is
    not initialised yet, and a host on which the add request fails. *)
Definition pending : service := construct [opA].
Definition disk_full : host :=
  {| opens := true; now1 := 1700000000500; random36 := "q0q0q0q0q";
     now2 := 1700000000500; writes := false |}.

(** A working day: two enqueues, two removals, one more enqueue. *)
Definition shift : list call :=
  [ CallAdd (answers 1700000000000 "k3x9ab0q1") ty_transaction act_create "{total: 12}";
    CallAdd (answers 1700000000007 "a1b2cd3e4") ty_inventory act_update "{sku: 7, qty: 3}";
    CallRemove true (id opA);
    CallRemove true "1600000000000-unrelated";
    CallAdd (answers 1700000000012 "zz81mma0p") ty_customer act_delete "{id: 44}" ].

(** The back office caches a product while the three mutations wait. *)
Definition store_down (k : string) : bool := false.

Definition tea : entity := {| entity_id := Some "p-17"; entity_body := "{name: tea}" |}.
Definition unkeyed : entity := {| entity_id := Some ""; entity_body := "{name: salt}" |}.

Definition backoffice : offline := {| queue := three; caches := ∅ |}.

Definition with_tea : offline :=
  {| queue := three; caches := {[ "products" := [("p-17", "{name: tea}")] ]} |}.

Definition with_salt : offline :=
  {| queue := three; caches := {[ "products" := [("", "{name: salt}")] ]} |}.

End Shop.

(** * Properties *)

Section Facts.

Context {payload : Payload}.

Lemma filter_all {A} (P : A -> Prop) `{!∀ x, Decision (P x)} (l : list A) :
  (∀ x, x ∈ l -> P x) -> filter P l = l.
Proof.
  induction l as [|x l IH]; intros Hall; [done|].
  rewrite filter_cons_True by (apply Hall; left).
  rewrite IH; [done|]. intros y Hy. apply Hall. by right.
Qed.

(** ** Key order of the object store *)

Lemma ltb_lt (a b : string) : String.ltb a b = true <-> String_as_OT.lt a b.
Proof.
  rewrite <- String_as_OT.cmp_lt. unfold String.ltb, String_as_OT.cmp.
  destruct (String.compare a b); split; congruence.
Qed.

Lemma ltb_trans (a b c : string) :
  String.ltb a b = true -> String.ltb b c = true -> String.ltb a c = true.
Proof. rewrite !ltb_lt. apply String_as_OT.lt_trans. Qed.

Lemma ltb_irrefl (a : string) : String.ltb a a = false.
Proof.
  destruct (String.ltb a a) eqn:E; [|done].
  apply ltb_lt in E. by destruct (String_as_OT.lt_not_eq _ _ E).
Qed.

Lemma ltb_total (a b : string) :
  String.ltb a b = false -> a ≠ b -> String.ltb b a = true.
Proof.
  unfold String.ltb. rewrite (String.compare_antisym b a).
  destruct (String.compare a b) eqn:E; simpl; try done.
  intros _ Hne. by apply String.compare_eq_iff in E.
Qed.

#[local] Instance key_lt_trans : Transitive key_lt.
Proof. intros x y z. apply ltb_trans. Qed.

(** ** The object store: membership, order, deletion *)

Lemma store_has_false k d : store_has k d = false <-> k ∉ id <$> d.
Proof. unfold store_has. by rewrite bool_decide_eq_false. Qed.

Lemma store_insert_perm r d : store_insert r d ≡ₚ r :: d.
Proof.
  induction d as [|x d IH]; simpl; [done|].
  destruct (String.ltb (id r) (id x)); [done|].
  rewrite IH. apply Permutation_swap.
Qed.

Lemma elem_of_store_insert x r d : x ∈ store_insert r d <-> x = r ∨ x ∈ d.
Proof. rewrite store_insert_perm. apply elem_of_cons. Qed.

Lemma store_insert_sorted r d :
  StronglySorted key_lt d -> id r ∉ id <$> d ->
  StronglySorted key_lt (store_insert r d).
Proof.
  induction 1 as [|x d Hd IH Hx]; intros Hfresh; simpl.
  - repeat constructor.
  - rewrite fmap_cons, not_elem_of_cons in Hfresh. destruct Hfresh as [Hne Hfresh].
    destruct (String.ltb (id r) (id x)) eqn:E.
    + constructor; [by constructor|].
      constructor; [done|].
      eapply Forall_impl; [exact Hx|]. intros y Hy. by transitivity x.
    + constructor; [by apply IH|].
      apply Forall_forall. intros y Hy. apply elem_of_store_insert in Hy as [->|Hy].
      * by apply ltb_total.
      * rewrite Forall_forall in Hx. by apply Hx.
Qed.

Lemma filter_sorted (P : PendingSync -> Prop) `{!∀ r, Decision (P r)} d :
  StronglySorted key_lt d -> StronglySorted key_lt (filter P d).
Proof.
  induction 1 as [|x d Hd IH Hx]; [constructor|].
  rewrite filter_cons. case_decide; [|done].
  constructor; [done|].
  apply Forall_forall. intros y Hy. apply list_elem_of_filter in Hy as [_ Hy].
  rewrite Forall_forall in Hx. by apply Hx.
Qed.

Lemma store_delete_absent k d : k ∉ id <$> d -> store_delete k d = d.
Proof.
  intros Hk. apply filter_all. intros r Hr E. apply Hk.
  apply list_elem_of_fmap. eauto.
Qed.

Lemma store_delete_gone k d : k ∉ id <$> store_delete k d.
Proof.
  unfold store_delete. rewrite list_elem_of_fmap. intros (r & -> & Hr).
  by apply list_elem_of_filter in Hr as [Hr _].
Qed.

(** ** Objects and references *)

Lemma lookup_iter_alter (g : PendingSync -> PendingSync) n l l' (h : list PendingSync) :
  Nat.iter n (alter g l) h !! l' =
  if decide (l' = l) then Nat.iter n g <$> h !! l' else h !! l'.
Proof.
  induction n as [|n IH]; simpl.
  - case_decide; [|done]. by destruct (h !! l').
  - destruct (decide (l' = l)) as [->|E].
    + rewrite list_lookup_alter_eq, IH. by destruct (h !! l).
    + rewrite list_lookup_alter_ne by done. by rewrite IH.
Qed.

Lemma length_iter_alter (g : PendingSync -> PendingSync) n l (h : list PendingSync) :
  length (Nat.iter n (alter g l) h) = length h.
Proof. induction n as [|n IH]; simpl; [done|]. by rewrite length_alter. Qed.

Lemma id_iter_incr n o : id (Nat.iter n incr_retries o) = id o.
Proof. induction n as [|n IH]; [done|]. exact IH. Qed.

Lemma retries_iter_incr n o : retries (Nat.iter n incr_retries o) = retries o + N.of_nat n.
Proof.
  induction n as [|n IH]; [simpl; lia|].
  change (retries (Nat.iter n incr_retries o) + 1 = retries o + N.of_nat (S n)).
  rewrite IH. lia.
Qed.

Lemma id_of_iter_alter n l l' h :
  id_of (Nat.iter n (alter incr_retries l) h) l' = id_of h l'.
Proof.
  unfold id_of. rewrite lookup_iter_alter. case_decide; [|done].
  destruct (h !! l') as [o|]; simpl; [|done]. by rewrite id_iter_incr.
Qed.

Lemma id_of_alter l l' h : id_of (alter incr_retries l h) l' = id_of h l'.
Proof. apply (id_of_iter_alter 1). Qed.

(** ** Pending loads *)

Lemma settle_settled s : loading s = 0%nat -> settle s = s.
Proof. unfold settle. by intros ->. Qed.

Lemma loads_spec n : ∀ s m,
  loading s = (n + m)%nat ->
  disk (Nat.iter n loadSyncQueue_onsuccess s) = disk s ∧
  db (Nat.iter n loadSyncQueue_onsuccess s) = db s ∧
  loading (Nat.iter n loadSyncQueue_onsuccess s) = m ∧
  ∃ ext, heap (Nat.iter n loadSyncQueue_onsuccess s) = heap s ++ ext.
Proof.
  induction n as [|n IH]; intros s m Hn.
  - split_and!; try done. exists []. by rewrite app_nil_r.
  - destruct (IH s (S m)) as (Hd & Hdb & Hl & ext & Hh); [lia|].
    simpl. unfold loadSyncQueue_onsuccess at 1 3 5 7. rewrite Hl. simpl.
    split_and!; try done. exists (ext ++ disk s).
    by rewrite Hh, Hd, <- app_assoc.
Qed.

Lemma settle_spec s :
  disk (settle s) = disk s ∧ db (settle s) = db s ∧ loading (settle s) = 0%nat ∧
  ∃ ext, heap (settle s) = heap s ++ ext.
Proof. apply loads_spec. lia. Qed.

Lemma settle_idemp s : settle (settle s) = settle s.
Proof. apply settle_settled, settle_spec. Qed.

(** ** One pass of the replay loop *)

Lemma remove_settled deletes k s hd :
  db s = Some hd -> loading s = 0%nat ->
  removeFromSyncQueue deletes k s =
  if deletes then
    (Resolved (),
     {| disk := store_delete k (disk s); db := db s; heap := heap s;
        syncQueue := filter (λ l, id_of (heap s) l ≠ Some k) (syncQueue s);
        loading := loading s |})
  else (RejectedWith RequestError, s).
Proof.
  intros Hdb Hl. unfold removeFromSyncQueue. rewrite Hdb. cbv zeta.
  by rewrite (settle_settled s Hl), Hdb.
Qed.

Lemma sync_item_spec f d s calls l o :
  db s ≠ None -> loading s = 0%nat -> heap s !! l = Some o ->
  sync_item f d (s, calls) l =
    ({| disk := if attempt_removes f d o then store_delete (id o) (disk s) else disk s;
        db := db s;
        heap := Nat.iter (attempt_bumps f d o) (alter incr_retries l) (heap s);
        syncQueue :=
          if attempt_removes f d o
          then filter (λ l', id_of (heap s) l' ≠ Some (id o)) (syncQueue s)
          else syncQueue s;
        loading := loading s |},
     calls ++ [o]).
Proof.
  intros Hdb Hld Hl. unfold sync_item, deref, attempt_removes, attempt_bumps.
  rewrite Hl. destruct s as [dk [hd|] hp sq ld]; [|done]. clear Hdb.
  simpl in Hld. subst ld.
  destruct (f o) as [[|]|e];
    rewrite ?(remove_settled _ _ _ hd) by done; unfold bump; simpl.
  - destruct (d (id o)); simpl; done.
  - destruct (5 <? retries o + 1); simpl; [|done].
    destruct (d (id o)); simpl; [|done].
    do 2 f_equal. apply list_filter_iff. intros l'. by rewrite id_of_alter.
  - done.
Qed.
Lemma removed_ids_cons f d h l q o :
  h !! l = Some o ->
  removed_ids f d h (l :: q) =
  if attempt_removes f d o then id o :: removed_ids f d h q else removed_ids f d h q.
Proof.
  intros Hl. unfold removed_ids. csimpl. rewrite Hl. csimpl.
  by destruct (attempt_removes f d o).
Qed.

Lemma removed_ids_agree f d h h' (q : list nat) :
  (∀ l, l ∈ q -> h' !! l = h !! l) ->
  removed_ids f d h' q = removed_ids f d h q.
Proof.
  intros Hag. unfold removed_ids. induction q as [|l q IH]; [done|].
  csimpl. rewrite Hag by left. rewrite IH; [done|].
  intros l' Hl'. apply Hag. by right.
Qed.

Lemma omap_deref_agree (h h' : list PendingSync) (q : list nat) :
  (∀ l, l ∈ q -> h' !! l = h !! l) ->
  omap (deref h') q = omap (deref h) q.
Proof.
  intros Hag. unfold deref. induction q as [|l q IH]; [done|].
  csimpl. rewrite Hag by left. rewrite IH; [done|].
  intros l' Hl'. apply Hag. by right.
Qed.

(** The loop over a snapshot [q] of distinct, valid references. *)
Lemma sync_loop_spec f d q : ∀ s calls,
  db s ≠ None -> loading s = 0%nat -> NoDup q -> (∀ l, l ∈ q -> is_Some (heap s !! l)) ->
  ∃ s', fold_left (sync_item f d) q (s, calls) = (s', calls ++ omap (deref (heap s)) q) ∧
    db s' = db s ∧ loading s' = 0%nat ∧
    disk s' = filter (λ r, id r ∉ removed_ids f d (heap s) q) (disk s) ∧
    syncQueue s' =
      filter (λ l, id_of (heap s) l ∉ Some <$> removed_ids f d (heap s) q) (syncQueue s) ∧
    length (heap s') = length (heap s) ∧
    ∀ l, heap s' !! l =
         if decide (l ∈ q) then after_attempt f d <$> heap s !! l else heap s !! l.
Proof.
  induction q as [|l q IH]; intros s calls Hdb Hld Hnd Hval.
  - exists s. simpl. rewrite app_nil_r. split_and!; try done.
    + symmetry. apply filter_all. intros r _. apply not_elem_of_nil.
    + symmetry. apply filter_all. intros r _. apply not_elem_of_nil.
  - destruct (Hval l) as [o Ho]; [by left|].
    apply NoDup_cons in Hnd as [Hl Hnd].
    cbn [fold_left]. rewrite (sync_item_spec _ _ _ _ _ o) by done.
    set (s1 := mkService _ _ _ _ _).
    assert (Hag : ∀ l', l' ∈ q -> heap s1 !! l' = heap s !! l').
    { intros l' Hl'. simpl. rewrite lookup_iter_alter, decide_False; [done|].
      intros ->. done. }
    destruct (IH s1 (calls ++ [o]))
      as (s' & Hrun & Hdb' & Hld' & Hdisk & Hq & Hlen & Hheap).
    { done. } { done. } { done. }
    { intros l' Hl'. rewrite Hag by done. apply Hval. by right. }
    exists s'. rewrite Hrun. split_and!.
    + rewrite <- app_assoc, (omap_deref_agree (heap s)) by done.
      do 2 f_equal. csimpl. unfold deref. by rewrite Ho.
    + done.
    + done.
    + rewrite Hdisk, (removed_ids_agree f d (heap s)) by done.
      rewrite (removed_ids_cons f d _ _ _ o) by done. simpl.
      destruct (attempt_removes f d o); [|done].
      unfold store_delete. rewrite list_filter_filter.
      apply list_filter_iff. intros r. rewrite not_elem_of_cons. tauto.
    + rewrite Hq, (removed_ids_agree f d (heap s)) by done.
      rewrite (removed_ids_cons f d _ _ _ o) by done. simpl.
      destruct (attempt_removes f d o).
      * rewrite list_filter_filter. apply list_filter_iff. intros l'.
        rewrite id_of_iter_alter, fmap_cons, not_elem_of_cons. tauto.
      * apply list_filter_iff. intros l'. by rewrite id_of_iter_alter.
    + rewrite Hlen. simpl. apply length_iter_alter.
    + intros l'. rewrite Hheap. simpl. rewrite lookup_iter_alter.
      destruct (decide (l' = l)) as [->|Hne].
      * rewrite decide_False by done. rewrite decide_True by left.
        rewrite Ho. done.
      * destruct (decide (l' ∈ q)) as [Hin|Hnin].
        -- rewrite decide_True; [done|]. by right.
        -- rewrite decide_False; [done|]. rewrite not_elem_of_cons. tauto.
Qed.

(** ** Well-formed states *)

Lemma reset_iter_incr n o : reset_retries (Nat.iter n incr_retries o) = reset_retries o.
Proof. induction n as [|n IH]; [done|]. exact IH. Qed.

Lemma reset_zero o : retries o = 0 -> reset_retries o = o.
Proof. destruct o; simpl; intros ->; done. Qed.

Lemma sorted_nodup_ids d : StronglySorted key_lt d -> NoDup (id <$> d).
Proof.
  induction 1 as [|x d Hd IH Hx]; [constructor|].
  rewrite fmap_cons. constructor; [|done].
  rewrite list_elem_of_fmap. intros (y & Hid & Hy).
  rewrite Forall_forall in Hx. specialize (Hx y Hy). unfold key_lt in Hx.
  rewrite Hid, ltb_irrefl in Hx. done.
Qed.

Lemma wf_refs s l : wf s -> l ∈ syncQueue s -> is_Some (heap s !! l).
Proof. intros Hwf Hl. destruct (wf_mirror s Hwf l Hl) as (o & Ho & _). eauto. Qed.

Lemma wf_nodup s : wf s -> NoDup (syncQueue s).
Proof. intros Hwf. eapply NoDup_fmap_1, wf_ids, Hwf. Qed.

Lemma wf_open s l : wf s -> l ∈ syncQueue s -> db s ≠ None.
Proof.
  intros Hwf Hl Hdb. rewrite (wf_closed s Hwf Hdb) in Hl.
  by apply not_elem_of_nil in Hl.
Qed.

(** Two queued references with the same id are the same reference. *)
Lemma wf_id_inj s l l' k :
  wf s -> l ∈ syncQueue s -> l' ∈ syncQueue s ->
  id_of (heap s) l = Some k -> id_of (heap s) l' = Some k -> l = l'.
Proof.
  intros Hwf Hl Hl' Hk Hk'.
  apply list_elem_of_lookup in Hl as [i Hi]. apply list_elem_of_lookup in Hl' as [j Hj].
  assert (i = j) as ->; [|congruence].
  eapply NoDup_lookup; [apply (wf_ids s Hwf)| |].
  - rewrite list_lookup_fmap, Hi. simpl. by rewrite Hk.
  - rewrite list_lookup_fmap, Hj. simpl. by rewrite Hk'.
Qed.

Lemma wf_construct d :
  StronglySorted key_lt d -> Forall (λ r, retries r = 0) d -> wf (construct d).
Proof.
  intros Hs Hz. split; simpl; try done.
  - intros l Hl. by apply not_elem_of_nil in Hl.
  - constructor.
Qed.

Lemma wf_consistent s : wf s -> consistent s.
Proof.
  intros Hwf. split.
  - intros Hdb. split; [by apply (wf_closed s Hwf)|apply (wf_settled s Hwf)].
  - apply (wf_mirror s Hwf).
  - apply (wf_ids s Hwf).
  - intros Hdb _. by apply (wf_cover s Hwf).
  - apply (wf_sorted s Hwf).
  - apply (wf_zero s Hwf).
Qed.

Lemma consistent_wf s : consistent s -> loading s = 0%nat -> wf s.
Proof.
  intros Hc Hl. split.
  - intros Hdb. by apply (co_closed s Hc).
  - apply (co_mirror s Hc).
  - apply (co_ids s Hc).
  - intros Hdb. apply (co_cover s Hc Hdb). by left.
  - apply (co_sorted s Hc).
  - apply (co_zero s Hc).
  - done.
Qed.

(** Reading freshly loaded records back through their references. *)
Lemma lookup_loaded (h d : list PendingSync) :
  (λ l, (h ++ d) !! l) <$> seq (length h) (length d) = Some <$> d.
Proof.
  revert h. induction d as [|r d IH]; intros h; [done|].
  simpl. f_equal.
  - rewrite lookup_app_r by lia. by rewrite Nat.sub_diag.
  - specialize (IH (h ++ [r])). rewrite <- app_assoc, length_app in IH. simpl in IH.
    by rewrite Nat.add_1_r in IH.
Qed.

Lemma contents_loaded (h d : list PendingSync) :
  omap (deref (h ++ d)) (seq (length h) (length d)) = d.
Proof.
  revert h. induction d as [|r d IH]; intros h; [done|].
  simpl. unfold deref at 1. rewrite lookup_app_r by lia. rewrite Nat.sub_diag. simpl.
  f_equal. specialize (IH (h ++ [r])). rewrite <- app_assoc, length_app in IH.
  simpl in IH. by rewrite Nat.add_1_r in IH.
Qed.

(** The state an answered load leaves. *)
Lemma consistent_fresh dk hd hp n :
  StronglySorted key_lt dk -> Forall (λ r, retries r = 0) dk ->
  consistent {| disk := dk; db := Some hd; heap := hp ++ dk;
                syncQueue := seq (length hp) (length dk); loading := n |}.
Proof.
  intros Hs Hz.
  assert (Hids : id_of (hp ++ dk) <$> seq (length hp) (length dk) = Some <$> (id <$> dk)).
  { transitivity (fmap id <$> ((λ l, (hp ++ dk) !! l) <$> seq (length hp) (length dk))).
    - by rewrite <- list_fmap_compose.
    - rewrite lookup_loaded. by rewrite <- !list_fmap_compose. }
  split; simpl; try done.
  - intros l Hl.
    assert (Hin : (hp ++ dk) !! l ∈ Some <$> dk).
    { rewrite <- (lookup_loaded hp). apply list_elem_of_fmap. eauto. }
    apply list_elem_of_fmap in Hin as (r & Hr & Hrd).
    exists r. split; [done|]. rewrite Forall_forall in Hz. by rewrite reset_zero by auto.
  - rewrite Hids. apply NoDup_fmap_2; [apply _|]. by apply sorted_nodup_ids.
  - intros _ _ r Hr. rewrite Hids. apply list_elem_of_fmap. eexists; split; [done|].
    apply list_elem_of_fmap. eauto.
Qed.

Lemma consistent_loaded s : consistent s -> consistent (loadSyncQueue_onsuccess s).
Proof.
  intros Hc. unfold loadSyncQueue_onsuccess, store_getAll.
  destruct (loading s) as [|n] eqn:Hl; [done|].
  destruct (db s) as [hd|] eqn:Hdb.
  - apply consistent_fresh; apply Hc.
  - destruct (co_closed s Hc Hdb) as [_ H0]. congruence.
Qed.

Lemma consistent_loads n s :
  consistent s -> consistent (Nat.iter n loadSyncQueue_onsuccess s).
Proof. intros Hc. induction n as [|n IH]; [done|]. by apply consistent_loaded. Qed.

(** Once the pending loads are answered the array mirrors the store. *)
Lemma wf_settle s : consistent s -> wf (settle s).
Proof.
  intros Hc. apply consistent_wf; [by apply consistent_loads|apply settle_spec].
Qed.

Lemma consistent_init opens s : consistent s -> consistent (snd (init opens s)).
Proof.
  intros Hc. unfold init. destruct opens; [|done]. simpl.
  split; simpl; try apply Hc; [done|].
  intros _ [?|Hq]; [done|]. apply (co_cover s Hc); [|by right].
  intros Hdb. by destruct (co_closed s Hc Hdb).
Qed.

Lemma consistent_bump l s : consistent s -> consistent (bump l s).
Proof.
  intros Hc.
  assert (Hids : id_of (alter incr_retries l (heap s)) <$> syncQueue s
                 = id_of (heap s) <$> syncQueue s).
  { apply list_fmap_ext. intros i l' _. apply id_of_alter. }
  split; simpl; try apply Hc.
  - intros l' Hl'. destruct (co_mirror s Hc l' Hl') as (o & Ho & Hd).
    destruct (decide (l' = l)) as [->|Hne].
    + exists (incr_retries o). by rewrite list_lookup_alter_eq, Ho.
    + exists o. by rewrite list_lookup_alter_ne.
  - rewrite Hids. apply Hc.
  - rewrite Hids. apply Hc.
Qed.

(** Deleting a set of keys from store and array, while objects change at
    most their retry counter, keeps a state well formed. *)
Lemma wf_shrink s (ks : list string) h' :
  wf s ->
  (∀ l o, heap s !! l = Some o ->
     ∃ o', h' !! l = Some o' ∧ id o' = id o ∧ reset_retries o' = reset_retries o) ->
  wf {| disk := filter (λ r, id r ∉ ks) (disk s); db := db s; heap := h';
        syncQueue := filter (λ l, id_of (heap s) l ∉ Some <$> ks) (syncQueue s);
        loading := loading s |}.
Proof.
  intros Hwf Hh'.
  assert (Hid : ∀ l, l ∈ syncQueue s -> id_of h' l = id_of (heap s) l).
  { intros l Hl. destruct (wf_mirror s Hwf l Hl) as (o & Ho & _).
    destruct (Hh' l o Ho) as (o' & Ho' & Hio & _).
    unfold id_of. rewrite Ho, Ho'. simpl. by rewrite Hio. }
  assert (Hids : id_of h' <$> filter (λ l, id_of (heap s) l ∉ Some <$> ks) (syncQueue s)
                 = id_of (heap s) <$> filter (λ l, id_of (heap s) l ∉ Some <$> ks) (syncQueue s)).
  { apply list_fmap_ext. intros i l Hl. apply Hid.
    apply list_elem_of_lookup_2 in Hl. by apply list_elem_of_filter in Hl as [_ Hl]. }
  split; simpl.
  - intros Hdb. by rewrite (wf_closed s Hwf Hdb).
  - intros l Hl. apply list_elem_of_filter in Hl as [Hk Hl].
    destruct (wf_mirror s Hwf l Hl) as (o & Ho & Hd).
    destruct (Hh' l o Ho) as (o' & Ho' & Hio & Hro).
    exists o'. split; [done|]. rewrite Hro. apply list_elem_of_filter. split; [|done].
    intros Hin. apply Hk. unfold id_of. rewrite Ho. simpl.
    apply list_elem_of_fmap. eauto.
  - rewrite Hids. eapply sublist_NoDup; [exact (wf_ids s Hwf)|].
    apply fmap_sublist, sublist_filter.
  - intros Hdb r Hr. apply list_elem_of_filter in Hr as [Hk Hr].
    rewrite Hids. pose proof (wf_cover s Hwf Hdb r Hr) as Hc.
    apply list_elem_of_fmap in Hc as (l & Hl & Hlq).
    apply list_elem_of_fmap. exists l. split; [done|].
    apply list_elem_of_filter. split; [|done].
    rewrite <- Hl. rewrite list_elem_of_fmap. intros (k & Hk1 & Hk2).
    by simplify_eq.
  - apply filter_sorted, Hwf.
  - pose proof (wf_zero s Hwf) as Hz. rewrite Forall_forall in *.
    intros r Hr. apply list_elem_of_filter in Hr as [_ Hr]. by apply Hz.
  - apply Hwf.
Qed.

Lemma remove_as_shrink k s hd :
  db s = Some hd -> loading s = 0%nat ->
  removeFromSyncQueue true k s =
  (Resolved (),
   {| disk := filter (λ r, id r ∉ [k]) (disk s); db := db s; heap := heap s;
      syncQueue := filter (λ l, id_of (heap s) l ∉ Some <$> [k]) (syncQueue s);
      loading := loading s |}).
Proof.
  intros Hdb Hl. rewrite (remove_settled _ _ _ hd) by done.
  unfold store_delete. do 2 f_equal.
  - apply list_filter_iff. intros r. by rewrite list_elem_of_singleton.
  - apply list_filter_iff. intros l. simpl. by rewrite list_elem_of_singleton.
Qed.

Lemma wf_remove deletes k s : wf s -> wf (snd (removeFromSyncQueue deletes k s)).
Proof.
  intros Hwf. pose proof (wf_settled s Hwf) as Hl.
  destruct (db s) as [hd|] eqn:Hdb.
  - destruct deletes.
    + rewrite (remove_as_shrink k s hd Hdb Hl). simpl.
      apply wf_shrink; [done|]. eauto.
    + by rewrite (remove_settled _ _ _ hd).
  - unfold removeFromSyncQueue. by rewrite Hdb.
Qed.

(** A delete request on a state with pending loads. *)
Lemma remove_settle deletes k s :
  db s ≠ None ->
  removeFromSyncQueue deletes k s = removeFromSyncQueue deletes k (settle s).
Proof.
  intros Hdb. unfold removeFromSyncQueue.
  destruct (settle_spec s) as (_ & Hdb' & _). rewrite settle_idemp, !Hdb'.
  by destruct (db s).
Qed.

Lemma consistent_remove deletes k s :
  consistent s -> consistent (snd (removeFromSyncQueue deletes k s)).
Proof.
  intros Hc. destruct (db s) as [hd|] eqn:Hdb.
  - rewrite remove_settle by congruence. by apply wf_consistent, wf_remove, wf_settle.
  - unfold removeFromSyncQueue. by rewrite Hdb.
Qed.

(** [addToSyncQueue] on an open database with no load pending. *)
Lemma add_open h ty act dat s hd :
  db s = Some hd -> loading s = 0%nat ->
  addToSyncQueue h ty act dat s =
  if writes h && negb (store_has (make_id h) (disk s)) then
    (Resolved (make_id h),
     {| disk := store_insert (syncItem h ty act dat) (disk s); db := db s;
        heap := heap s ++ [syncItem h ty act dat];
        syncQueue := syncQueue s ++ [length (heap s)]; loading := loading s |})
  else (RejectedWith RequestError, s).
Proof.
  intros Hdb Hl. unfold addToSyncQueue, store_add. rewrite Hdb. cbv zeta.
  rewrite (settle_settled s Hl). simpl. rewrite Hdb.
  destruct (writes h); simpl; [|done].
  by destruct (store_has (make_id h) (disk s)).
Qed.

(** [addToSyncQueue] on an open database: the pending loads come first. *)
Lemma add_settle h ty act dat s :
  db s ≠ None ->
  addToSyncQueue h ty act dat s = addToSyncQueue h ty act dat (settle s).
Proof.
  intros Hdb. destruct (settle_spec s) as (_ & Hdb' & _).
  destruct (db s) as [hd|] eqn:E; [|done].
  unfold addToSyncQueue. rewrite E, Hdb'. cbv zeta. cbn [fst snd].
  by rewrite E, settle_idemp, !Hdb'.
Qed.

(** [addToSyncQueue] on a service that is not initialised yet. *)
Lemma add_closed h ty act dat s :
  db s = None ->
  addToSyncQueue h ty act dat s =
  if opens h then addToSyncQueue h ty act dat (snd (init true s))
  else (RejectedWith OpenError, s).
Proof.
  intros Hdb. unfold addToSyncQueue at 1. rewrite Hdb. unfold init.
  destruct (opens h); [|done]. simpl. done.
Qed.

Lemma wf_add_open h ty act dat s hd :
  db s = Some hd -> wf s -> wf (snd (addToSyncQueue h ty act dat s)).
Proof.
  intros Hdb Hwf. rewrite (add_open _ _ _ _ _ hd Hdb (wf_settled s Hwf)).
  destruct (writes h); simpl; [|done].
  destruct (store_has (make_id h) (disk s)) eqn:Hhas; simpl; [done|].
  apply store_has_false in Hhas. set (o := syncItem h ty act dat).
  assert (Hold : ∀ l, l ∈ syncQueue s -> (heap s ++ [o]) !! l = heap s !! l).
  { intros l Hl. destruct (wf_refs s l Hwf Hl) as [x Hx].
    by rewrite (lookup_app_l_Some _ _ _ _ Hx). }
  assert (Hids : id_of (heap s ++ [o]) <$> (syncQueue s ++ [length (heap s)])
                 = (id_of (heap s) <$> syncQueue s) ++ [Some (id o)]).
  { rewrite fmap_app. f_equal.
    - apply list_fmap_ext. intros i l Hl. unfold id_of. rewrite Hold; [done|].
      by apply list_elem_of_lookup_2 in Hl.
    - simpl. unfold id_of. by rewrite list_lookup_middle. }
  split; simpl.
  - by rewrite Hdb.
  - intros l Hl. apply elem_of_app in Hl as [Hl|Hl].
    + destruct (wf_mirror s Hwf l Hl) as (x & Hx & Hd). exists x.
      rewrite Hold by done. split; [done|]. apply elem_of_store_insert. by right.
    + apply list_elem_of_singleton in Hl as ->. exists o.
      rewrite list_lookup_middle by done. split; [done|].
      apply elem_of_store_insert. by left.
  - rewrite Hids. apply NoDup_app. split; [apply Hwf|]. split.
    + intros x Hx Hx'. apply list_elem_of_singleton in Hx' as ->.
      apply list_elem_of_fmap in Hx as (l & Hl & Hlq).
      destruct (wf_mirror s Hwf l Hlq) as (x & Hx & Hd).
      apply Hhas. apply list_elem_of_fmap. exists (reset_retries x). split; [|done].
      unfold id_of in Hl. rewrite Hx in Hl. simpl in Hl. by simplify_eq.
    + apply NoDup_singleton.
  - intros _ r Hr. rewrite Hids. apply elem_of_store_insert in Hr as [->|Hr].
    + apply elem_of_app. right. by apply list_elem_of_singleton.
    + apply elem_of_app. left. apply (wf_cover s Hwf); [by rewrite Hdb|done].
  - apply store_insert_sorted; [apply Hwf|done].
  - apply Forall_forall. intros r Hr. apply elem_of_store_insert in Hr as [->|Hr]; [done|].
    pose proof (wf_zero s Hwf) as Hz. rewrite Forall_forall in Hz. by apply Hz.
  - apply Hwf.
Qed.

(** Whatever was pending, an enqueue on an open database leaves a
    well-formed state. *)
Lemma wf_add_settles h ty act dat s :
  consistent s -> db s ≠ None -> wf (snd (addToSyncQueue h ty act dat s)).
Proof.
  intros Hc Hdb. rewrite add_settle by done.
  destruct (settle_spec s) as (_ & Hdb' & _).
  destruct (db s) as [hd|] eqn:E; [|done].
  apply (wf_add_open _ _ _ _ _ hd); [done|by apply wf_settle].
Qed.

Lemma consistent_add h ty act dat s :
  consistent s -> consistent (snd (addToSyncQueue h ty act dat s)).
Proof.
  intros Hc. destruct (db s) as [hd|] eqn:Hdb.
  - apply wf_consistent, wf_add_settles; [done|congruence].
  - rewrite add_closed by done. destruct (opens h); [|done].
    apply wf_consistent, wf_add_settles; [by apply consistent_init|done].
Qed.

Lemma wf_add h ty act dat s : wf s -> wf (snd (addToSyncQueue h ty act dat s)).
Proof.
  intros Hwf. destruct (db s) as [hd|] eqn:Hdb.
  - by apply (wf_add_open _ _ _ _ _ hd).
  - rewrite add_closed by done. destruct (opens h); [|done].
    apply wf_add_settles; [by apply consistent_init, wf_consistent|done].
Qed.

(** ** One replay pass on a well-formed state *)

Lemma sync_pass f d s :
  wf s ->
  ∃ s', syncWhenOnline true f d s = (s', contents s) ∧
    db s' = db s ∧
    disk s' = filter (λ r, id r ∉ removed_ids f d (heap s) (syncQueue s)) (disk s) ∧
    syncQueue s' =
      filter (λ l, id_of (heap s) l ∉ Some <$> removed_ids f d (heap s) (syncQueue s))
             (syncQueue s) ∧
    length (heap s') = length (heap s) ∧
    ∀ l, heap s' !! l =
         if decide (l ∈ syncQueue s) then after_attempt f d <$> heap s !! l
         else heap s !! l.
Proof.
  intros Hwf. unfold syncWhenOnline, contents, getSyncQueue.
  destruct (syncQueue s) as [|l0 q] eqn:Hq.
  - exists s. split_and!; try done.
    + symmetry. apply filter_all. intros r _. apply not_elem_of_nil.
  - rewrite <- Hq.
    destruct (sync_loop_spec f d (syncQueue s) s []) as (s' & Hrun & Hdb & _ & Hrest).
    + apply (wf_open s l0); [done|]. rewrite Hq. left.
    + apply Hwf.
    + by apply wf_nodup.
    + intros l Hl. by apply wf_refs.
    + exists s'. split; [by rewrite Hrun|]. by split.
Qed.

Lemma sync_pass_settled online f d s :
  wf s -> loading (fst (syncWhenOnline online f d s)) = 0%nat.
Proof.
  intros Hwf. pose proof (wf_settled s Hwf) as Hl.
  unfold syncWhenOnline, getSyncQueue. destruct online; [|done].
  destruct (syncQueue s) as [|l0 q] eqn:Hq; [done|]. rewrite <- Hq.
  destruct (sync_loop_spec f d (syncQueue s) s []) as (s' & Hrun & _ & Hld & _).
  - apply (wf_open s l0); [done|]. rewrite Hq. left.
  - done.
  - by apply wf_nodup.
  - intros l Hl'. by apply wf_refs.
  - by rewrite Hrun.
Qed.

(** The loop keeps a state consistent, whatever is pending. *)
Lemma consistent_sync_item f d l acc :
  consistent (fst acc) -> consistent (fst (sync_item f d acc l)).
Proof.
  destruct acc as [s calls]. simpl. intros Hc. unfold sync_item.
  destruct (deref (heap s) l) as [item|]; [|done].
  destruct (f item) as [[|]|e]; simpl.
  - pose proof (consistent_remove (d (id item)) (id item) s Hc) as Hr.
    destruct (removeFromSyncQueue (d (id item)) (id item) s) as [[[]|e] s']; simpl in *;
      [done|by apply consistent_bump].
  - destruct (5 <? retries item + 1); simpl; [|by apply consistent_bump].
    pose proof (consistent_remove (d (id item)) (id item) (bump l s)
                  (consistent_bump l s Hc)) as Hr.
    destruct (removeFromSyncQueue (d (id item)) (id item) (bump l s)) as [[[]|e] s'];
      simpl in *; [done|by apply consistent_bump].
  - by apply consistent_bump.
Qed.

Lemma consistent_sync online f d s :
  consistent s -> consistent (fst (syncWhenOnline online f d s)).
Proof.
  intros Hc. unfold syncWhenOnline, getSyncQueue. destruct online; [|done].
  destruct (syncQueue s) as [|l0 q]; [done|].
  generalize (l0 :: q). intros q'.
  assert (Hacc : consistent (fst (s, @nil PendingSync))) by done.
  revert Hacc. generalize (s, @nil PendingSync). clear.
  induction q' as [|l q' IH]; intros acc Hacc; [done|].
  cbn [fold_left]. apply IH. by apply consistent_sync_item.
Qed.

Lemma wf_sync online f d s : wf s -> wf (fst (syncWhenOnline online f d s)).
Proof.
  intros Hwf. apply consistent_wf.
  - by apply consistent_sync, wf_consistent.
  - by apply sync_pass_settled.
Qed.

Lemma wf_replays n f d s : wf s -> wf (replays n f d s).
Proof.
  revert s. induction n as [|n IH]; intros s Hwf; [done|].
  cbn [replays]. apply IH. by apply wf_sync.
Qed.

(** ** States the service can reach from a first start *)

Lemma reachable_consistent s : reachable s -> consistent s.
Proof.
  induction 1 as [|o s _ IH|s _ IH|h ty act dat s _ IH|dl k s _ IH|on f d s _ IH|s _ IH].
  - apply wf_consistent, wf_construct; constructor.
  - by apply consistent_init.
  - by apply consistent_loaded.
  - by apply consistent_add.
  - by apply consistent_remove.
  - by apply consistent_sync.
  - apply wf_consistent, wf_construct; apply IH.
Qed.

Lemma reachable_wf s : reachable s -> loading s = 0%nat -> wf s.
Proof. intros Hr Hl. apply consistent_wf; [by apply reachable_consistent|done]. Qed.

Lemma replays_succ n f d s :
  replays (S n) f d s = fst (syncWhenOnline true f d (replays n f d s)).
Proof.
  revert s. induction n as [|n IH]; intros s; [done|].
  change (replays (S (S n)) f d s)
    with (replays (S n) f d (fst (syncWhenOnline true f d s))).
  by rewrite IH.
Qed.

Lemma reachable_replays n f d s : reachable s -> reachable (replays n f d s).
Proof.
  revert s. induction n as [|n IH]; intros s Hs; [done|].
  cbn [replays]. apply IH. by apply reach_sync.
Qed.

(** ** Reading the array *)

Lemma filter_none {A} (P : A -> Prop) `{!∀ x, Decision (P x)} (l : list A) :
  (∀ x, x ∈ l -> ¬ P x) -> filter P l = [].
Proof.
  induction l as [|x l IH]; intros Hall; [done|].
  rewrite filter_cons_False by (apply Hall; left).
  apply IH. intros y Hy. apply Hall. by right.
Qed.

Lemma elem_of_contents s o :
  o ∈ contents s <-> ∃ l, l ∈ syncQueue s ∧ heap s !! l = Some o.
Proof. unfold contents, getSyncQueue, deref. apply list_elem_of_omap. Qed.

Lemma ids_contents (h : list PendingSync) (q : list nat) :
  (∀ l, l ∈ q -> is_Some (h !! l)) ->
  id_of h <$> q = Some <$> (id <$> omap (deref h) q).
Proof.
  induction q as [|l q IH]; intros Hval; [done|].
  destruct (Hval l) as [o Ho]; [by left|].
  csimpl. unfold id_of at 1, deref at 1. rewrite Ho. simpl. f_equal.
  apply IH. intros l' Hl'. apply Hval. by right.
Qed.

Lemma wf_contents_nodup s : wf s -> NoDup (id <$> contents s).
Proof.
  intros Hwf. apply (NoDup_fmap_1 Some). unfold contents, getSyncQueue.
  rewrite <- ids_contents; [apply Hwf|]. intros l Hl. by apply wf_refs.
Qed.

Lemma elem_of_removed_ids f d (h : list PendingSync) (q : list nat) k :
  k ∈ removed_ids f d h q <->
  ∃ l o, l ∈ q ∧ h !! l = Some o ∧ attempt_removes f d o = true ∧ id o = k.
Proof.
  unfold removed_ids. rewrite list_elem_of_omap. split.
  - intros (l & Hl & Hk). destruct (h !! l) as [o|] eqn:Ho; simpl in Hk; [|done].
    destruct (attempt_removes f d o) eqn:Hr; [|done]. simplify_eq. eauto 6.
  - intros (l & o & Hl & Ho & Hr & <-). exists l. split; [done|].
    rewrite Ho. simpl. by rewrite Hr.
Qed.

(** In a well-formed state an id is removed by a pass exactly when the
    attempt on the object that carries it decides so. *)
Lemma removed_ids_own f d s l o :
  wf s -> l ∈ syncQueue s -> heap s !! l = Some o ->
  id o ∈ removed_ids f d (heap s) (syncQueue s) <-> attempt_removes f d o = true.
Proof.
  intros Hwf Hl Ho. rewrite elem_of_removed_ids. split.
  - intros (l' & o' & Hl' & Ho' & Hr & Hid).
    assert (l' = l) as ->; [|congruence].
    apply (wf_id_inj s l' l (id o)); try done.
    + unfold id_of. rewrite Ho'. simpl. by rewrite Hid.
    + unfold id_of. by rewrite Ho.
  - intros Hr. eauto 6.
Qed.

(** What a pass does to one queued object. *)
Lemma sync_pass_own f d s l o :
  wf s -> l ∈ syncQueue s -> heap s !! l = Some o ->
  let s' := fst (syncWhenOnline true f d s) in
  heap s' !! l = Some (after_attempt f d o) ∧
  (l ∈ syncQueue s' <-> attempt_removes f d o = false) ∧
  (attempt_removes f d o = true -> id o ∉ id <$> disk s').
Proof.
  intros Hwf Hl Ho.
  destruct (sync_pass f d s Hwf) as (s' & -> & Hdb & Hdisk & Hq & Hlen & Hheap).
  simpl. split_and!.
  - by rewrite Hheap, decide_True, Ho.
  - rewrite Hq, list_elem_of_filter. unfold id_of at 1. rewrite Ho. simpl.
    rewrite <- not_true_iff_false, <- (removed_ids_own f d s l o) by done.
    split; [intros [Hk _]|intros Hk; split; [|done]].
    + intros Hin. apply Hk. apply list_elem_of_fmap. eauto.
    + rewrite list_elem_of_fmap. intros (k & ? & Hin). by simplify_eq.
  - intros Hr. rewrite Hdisk, list_elem_of_fmap. intros (r & Hid & Hr').
    apply list_elem_of_filter in Hr' as [Hk _]. apply Hk. rewrite <- Hid.
    by apply (removed_ids_own f d s l o).
Qed.

(** ** Reading the array after a load *)

Lemma contents_onsuccess s :
  loading s ≠ 0%nat -> contents (loadSyncQueue_onsuccess s) = disk s.
Proof.
  intros Hl. unfold loadSyncQueue_onsuccess, contents, getSyncQueue.
  destruct (loading s); [done|]. simpl. apply contents_loaded.
Qed.

Lemma contents_settle s : loading s ≠ 0%nat -> contents (settle s) = disk s.
Proof.
  intros Hl. unfold settle. destruct (loading s) as [|n] eqn:E; [done|].
  destruct (loads_spec n s 1) as (Hd & _ & Hl' & _); [lia|].
  simpl. rewrite contents_onsuccess by lia. done.
Qed.

Lemma contents_reload s : contents (loadSyncQueue_onsuccess (reload true s)) = disk s.
Proof. by rewrite contents_onsuccess. Qed.

(** ** Bounded retry *)

Section AlwaysFalse.

Variables (f : PendingSync -> outcome bool) (d : string -> bool).
Hypothesis f_false : ∀ x, f x = Resolved false.
Hypothesis d_ok : ∀ k, d k = true.

Lemma always_false_removes o : attempt_removes f d o = (5 <? retries o + 1).
Proof. unfold attempt_removes. by rewrite f_false, d_ok, andb_true_r. Qed.

Lemma always_false_bumps o : after_attempt f d o = incr_retries o.
Proof.
  unfold after_attempt, attempt_bumps. by rewrite f_false, d_ok, andb_false_r.
Qed.

(** While the counter stays within the ceiling the object stays queued
    and each pass adds one to it. *)
Lemma always_false_stays n : ∀ s l o,
  wf s -> l ∈ syncQueue s -> heap s !! l = Some o ->
  (n <= passes_left (retries o))%nat ->
  l ∈ syncQueue (replays n f d s) ∧
  heap (replays n f d s) !! l = Some (Nat.iter n incr_retries o).
Proof.
  unfold passes_left.
  induction n as [|n IH]; intros s l o Hwf Hl Ho Hle; [done|].
  cbn [replays].
  destruct (sync_pass_own f d s l o Hwf Hl Ho) as (Hh & Hq & _).
  rewrite always_false_bumps in Hh. rewrite always_false_removes in Hq.
  destruct (IH (fst (syncWhenOnline true f d s)) l (incr_retries o)) as [Hq' Hh'].
  - by apply wf_sync.
  - apply Hq. apply N.ltb_ge. lia.
  - done.
  - simpl. lia.
  - split; [done|]. rewrite Hh'. f_equal. clear.
    induction n as [|n IHn]; [done|]. simpl. by rewrite IHn.
Qed.

End AlwaysFalse.

(** C1 (as amended).  When submit always resolves [false] and the store
    performs its deletes, a queued operation is removed by the pass whose
    increment takes its retry counter beyond 5, not earlier and not
    later: with counter [r] at the start it is still queued after each of
    the next [5 - r] passes (none if [r] is 5 or more), the counter
    growing by one per pass, and the pass after these removes it from the
    array and from the store.  For a counter of 0 that is: queued through
    five passes, removed by the sixth. *)
Theorem bounded_retry_six_passes f d s l o :
  (∀ x, f x = Resolved false) -> (∀ k, d k = true) ->
  wf s -> l ∈ syncQueue s -> heap s !! l = Some o ->
  (∀ n, (n <= passes_left (retries o))%nat ->
     l ∈ syncQueue (replays n f d s) ∧
     retries <$> (heap (replays n f d s) !! l) = Some (retries o + N.of_nat n)) ∧
  (l ∉ syncQueue (replays (S (passes_left (retries o))) f d s)) ∧
  (id o ∉ id <$> disk (replays (S (passes_left (retries o))) f d s)) ∧
  (retries o = 0 -> S (passes_left (retries o)) = 6%nat).
Proof.
  intros Hf Hd Hwf Hl Ho. split_and!.
  - intros n Hn.
    destruct (always_false_stays f d Hf Hd n s l o Hwf Hl Ho Hn) as [Hq Hh].
    split; [done|]. rewrite Hh. simpl. by rewrite retries_iter_incr.
  - assert (Hm : (passes_left (retries o) <= passes_left (retries o))%nat) by done.
    destruct (always_false_stays f d Hf Hd _ s l o Hwf Hl Ho Hm) as [Hq Hh].
    pose proof (sync_pass_own f d _ l _ (wf_replays _ f d s Hwf) Hq Hh)
      as (_ & Hq' & _).
    rewrite always_false_removes, retries_iter_incr in Hq' by done.
    rewrite replays_succ. intros Hin. apply Hq' in Hin. apply N.ltb_ge in Hin.
    unfold passes_left in Hin. lia.
  - assert (Hm : (passes_left (retries o) <= passes_left (retries o))%nat) by done.
    destruct (always_false_stays f d Hf Hd _ s l o Hwf Hl Ho Hm) as [Hq Hh].
    pose proof (sync_pass_own f d _ l _ (wf_replays _ f d s Hwf) Hq Hh)
      as (_ & _ & Hd').
    rewrite always_false_removes, retries_iter_incr, id_iter_incr in Hd' by done.
    rewrite replays_succ. apply Hd'. apply N.ltb_lt. unfold passes_left. lia.
  - intros ->. done.
Qed.

(** ** One attempt per operation and pass *)

(** C9.  Whatever submit answers (true, false or a rejection) and
    whatever the store does, a replay pass calls submit on the operations
    of its starting snapshot one after the other, once each: the ids of
    the calls are pairwise distinct, so no id is attempted twice. *)
Theorem one_attempt_per_pass online f d s :
  wf s ->
  snd (syncWhenOnline online f d s) = (if online then contents s else []) ∧
  NoDup (id <$> snd (syncWhenOnline online f d s)).
Proof.
  intros Hwf. destruct online.
  - destruct (sync_pass f d s Hwf) as (s' & -> & _). simpl.
    split; [done|]. by apply wf_contents_nodup.
  - simpl. split; [done|]. constructor.
Qed.

(** ** The store under replay *)

Lemma remove_disk_sublist deletes k s :
  disk (snd (removeFromSyncQueue deletes k s)) `sublist_of` disk s.
Proof.
  unfold removeFromSyncQueue. destruct (db s); [|done].
  destruct (settle_spec s) as (Hd & _).
  destruct deletes; simpl; rewrite Hd; [apply sublist_filter|done].
Qed.

Lemma sync_item_disk_sublist f d acc l :
  disk (fst (sync_item f d acc l)) `sublist_of` disk (fst acc).
Proof.
  destruct acc as [s calls]. simpl. unfold sync_item.
  destruct (deref (heap s) l) as [item|]; [|done].
  destruct (f item) as [[|]|e]; simpl.
  - pose proof (remove_disk_sublist (d (id item)) (id item) s) as Hs.
    by destruct (removeFromSyncQueue (d (id item)) (id item) s) as [[[]|e] s'].
  - destruct (5 <? retries item + 1); simpl; [|done].
    pose proof (remove_disk_sublist (d (id item)) (id item) (bump l s)) as Hs.
    by destruct (removeFromSyncQueue (d (id item)) (id item) (bump l s)) as [[[]|e] s'].
  - done.
Qed.

(** Whatever the state, a pass only deletes from the store. *)
Lemma sync_disk_sublist online f d s :
  disk (fst (syncWhenOnline online f d s)) `sublist_of` disk s.
Proof.
  unfold syncWhenOnline, getSyncQueue. destruct online; [|done].
  destruct (syncQueue s) as [|l0 q]; [done|].
  generalize (l0 :: q). intros q'.
  change (disk s) with (disk (fst (s, @nil PendingSync))).
  generalize (s, @nil PendingSync).
  induction q' as [|l q' IH]; intros acc; [done|].
  cbn [fold_left]. etransitivity; [apply IH|]. apply sync_item_disk_sublist.
Qed.

Lemma replays_disk_sublist n f d s : disk (replays n f d s) `sublist_of` disk s.
Proof.
  revert s. induction n as [|n IH]; intros s; [done|].
  cbn [replays]. etransitivity; [apply IH|]. apply sync_disk_sublist.
Qed.

Lemma consistent_replays n f d s : consistent s -> consistent (replays n f d s).
Proof.
  revert s. induction n as [|n IH]; intros s Hc; [done|].
  cbn [replays]. by apply IH, consistent_sync.
Qed.

(** C10.  A replay pass changes the object store only by deleting
    records: what remains is a sub-sequence of the old records,
    untouched.  The counters incremented in memory never reach it: after
    any number of passes, whatever submit and the store answer and
    whether or not a load is pending, the record of every queued object
    is the object with [retries] 0, all records carry [retries] 0, and
    these records are what the load of a restarted service assigns to
    the array.  So every operation that survives to a reload comes back
    with [retries] 0. *)
Theorem replay_only_deletes_from_store online f d n s :
  consistent s ->
  disk (fst (syncWhenOnline online f d s)) `sublist_of` disk s ∧
  disk (replays n f d s) `sublist_of` disk s ∧
  (∀ o, o ∈ contents (replays n f d s) -> reset_retries o ∈ disk (replays n f d s)) ∧
  Forall (λ r, retries r = 0) (disk (replays n f d s)) ∧
  disk (reload true (replays n f d s)) = disk (replays n f d s) ∧
  contents (loadSyncQueue_onsuccess (reload true (replays n f d s)))
    = disk (replays n f d s) ∧
  Forall (λ o, retries o = 0)
    (contents (loadSyncQueue_onsuccess (reload true (replays n f d s)))).
Proof.
  intros Hc. pose proof (consistent_replays n f d s Hc) as Hc'. split_and!.
  - apply sync_disk_sublist.
  - apply replays_disk_sublist.
  - intros o Ho. apply elem_of_contents in Ho as (l & Hl & Ho).
    destruct (co_mirror _ Hc' l Hl) as (o' & Ho' & Hd). congruence.
  - apply Hc'.
  - done.
  - apply contents_reload.
  - rewrite contents_reload. apply Hc'.
Qed.

(** ** Partial failure *)

Lemma contents_refs s :
  wf s -> Forall2 (λ l o, heap s !! l = Some o) (syncQueue s) (contents s).
Proof.
  intros Hwf. unfold contents, getSyncQueue.
  assert (Hval : ∀ l, l ∈ syncQueue s -> is_Some (heap s !! l))
    by (intros l Hl; by apply wf_refs).
  induction (syncQueue s) as [|l q IH]; [constructor|].
  destruct (Hval l) as [o Ho]; [by left|].
  csimpl. unfold deref at 1. rewrite Ho. constructor; [done|].
  apply IH. intros l' Hl'. apply Hval. by right.
Qed.

(** C5.  For a queue holding A, B, C in this order, B never tried
    before, when submit resolves [true] for A and C and [false] for B and
    the store performs its deletes: one replay pass attempts A, B and C
    in this order, removes A and C from the array and the store, and
    leaves exactly B queued, with [retries] 1. *)
Theorem partial_failure_isolated f d s a b c :
  wf s -> contents s = [a; b; c] ->
  f a = Resolved true -> f b = Resolved false -> f c = Resolved true ->
  (∀ k, d k = true) -> retries b = 0 ->
  snd (syncWhenOnline true f d s) = [a; b; c] ∧
  contents (fst (syncWhenOnline true f d s)) = [incr_retries b] ∧
  retries (incr_retries b) = 1 ∧
  (id a ∉ id <$> disk (fst (syncWhenOnline true f d s))) ∧
  (id c ∉ id <$> disk (fst (syncWhenOnline true f d s))).
Proof.
  intros Hwf Hc Ha Hb Hcc Hd Hr.
  pose proof (contents_refs s Hwf) as Hrefs. rewrite Hc in Hrefs.
  assert (Hlen : length (syncQueue s) = 3%nat)
    by (by rewrite (Forall2_length _ _ _ Hrefs)).
  destruct (syncQueue s) as [|la [|lb [|lc [|? ?]]]] eqn:Hq; try done. clear Hlen.
  apply Forall2_cons in Hrefs as [Hla Hrefs].
  apply Forall2_cons in Hrefs as [Hlb Hrefs].
  apply Forall2_cons in Hrefs as [Hlc _].
  assert (Ra : attempt_removes f d a = true)
    by (unfold attempt_removes; by rewrite Ha, Hd).
  assert (Rb : attempt_removes f d b = false)
    by (unfold attempt_removes; by rewrite Hb, Hr).
  assert (Rc : attempt_removes f d c = true)
    by (unfold attempt_removes; by rewrite Hcc, Hd).
  assert (Ina : la ∈ syncQueue s) by (rewrite Hq; repeat constructor).
  assert (Inb : lb ∈ syncQueue s) by (rewrite Hq; repeat constructor).
  assert (Inc : lc ∈ syncQueue s) by (rewrite Hq; repeat constructor).
  destruct (sync_pass_own f d s la a Hwf Ina Hla) as (_ & Qa & Da).
  destruct (sync_pass_own f d s lb b Hwf Inb Hlb) as (Hhb & Qb & _).
  destruct (sync_pass_own f d s lc c Hwf Inc Hlc) as (_ & Qc & Dc).
  destruct (sync_pass f d s Hwf) as (s' & Hrun & _ & _ & Hq' & _).
  rewrite Hrun in *. simpl in *. rewrite Hc.
  split_and!; [done| |by rewrite Hr|by apply Da|by apply Dc].
  assert (Hs' : syncQueue s' = [lb]).
  { rewrite Hq' in Qa, Qb, Qc. rewrite list_elem_of_filter in Qa, Qb, Qc.
    rewrite Hq'. clear Hq' Ina Inb Inc. revert Qa Qb Qc. rewrite Hq. intros Qa Qb Qc.
    rewrite !filter_cons, filter_nil.
    rewrite decide_False.
    2:{ intros HP. destruct Qa as [Qa _]. rewrite Qa in Ra; [done|].
        split; [done|]. repeat constructor. }
    rewrite decide_True by (by apply Qb).
    rewrite decide_False; [done|].
    intros HP. destruct Qc as [Qc _]. rewrite Qc in Rc; [done|].
    split; [done|]. repeat constructor. }
  unfold contents, getSyncQueue. rewrite Hs'. csimpl.
  unfold deref. rewrite Hhb. simpl. do 2 f_equal.
  unfold after_attempt, attempt_bumps. by rewrite Hb, Hr.
Qed.

(** ** Enqueue and remove seen from [getSyncQueue] *)

Lemma contents_filter (h : list PendingSync) (q : list nat) k :
  omap (deref h) (filter (λ l, id_of h l ≠ Some k) q) =
  filter (λ o, id o ≠ k) (omap (deref h) q).
Proof.
  induction q as [|l q IH]; [done|].
  assert (Hid : id_of h l = id <$> h !! l) by done.
  destruct (h !! l) as [o|] eqn:Ho; simpl in Hid.
  - assert (Hd : ∀ q', omap (deref h) (l :: q') = o :: omap (deref h) q').
    { intros q'. csimpl. unfold deref at 1. by rewrite Ho. }
    rewrite Hd. destruct (decide (id o = k)) as [E|E].
    + rewrite filter_cons_False by (rewrite Hid; intros HP; apply HP; by rewrite E).
      rewrite filter_cons_False by (intros HP; by apply HP). done.
    + rewrite filter_cons_True by (rewrite Hid; congruence).
      rewrite filter_cons_True by done. rewrite Hd. by rewrite IH.
  - assert (Hd : ∀ q', omap (deref h) (l :: q') = omap (deref h) q').
    { intros q'. csimpl. unfold deref at 1. by rewrite Ho. }
    rewrite filter_cons_True by (by rewrite Hid). by rewrite !Hd.
Qed.

Lemma contents_remove k s hd :
  db s = Some hd -> loading s = 0%nat ->
  contents (snd (removeFromSyncQueue true k s)) = filter (λ o, id o ≠ k) (contents s).
Proof.
  intros Hdb Hl. rewrite (remove_settled _ _ _ hd) by done. apply contents_filter.
Qed.

Lemma contents_push (h : list PendingSync) (q : list nat) o :
  (∀ l, l ∈ q -> is_Some (h !! l)) ->
  omap (deref (h ++ [o])) (q ++ [length h]) = omap (deref h) q ++ [o].
Proof.
  intros Hval. rewrite omap_app. f_equal.
  - apply omap_deref_agree. intros l Hl. destruct (Hval l Hl) as [x Hx].
    rewrite Hx. by apply lookup_app_l_Some.
  - csimpl. unfold deref. by rewrite list_lookup_middle.
Qed.

(** A resolved [addToSyncQueue] with no load pending: the record is
    inserted in the store and the object is appended to the array. *)
Lemma add_resolved_settled h ty act dat t hd k s' :
  wf t -> db t = Some hd -> addToSyncQueue h ty act dat t = (Resolved k, s') ->
  k = make_id h ∧ store_has k (disk t) = false ∧
  disk s' = store_insert (syncItem h ty act dat) (disk t) ∧
  contents s' = contents t ++ [syncItem h ty act dat] ∧ db s' ≠ None.
Proof.
  intros Ht Hdb Hrun. rewrite (add_open _ _ _ _ _ hd Hdb (wf_settled t Ht)) in Hrun.
  destruct (writes h); simpl in Hrun; [|done].
  destruct (store_has (make_id h) (disk t)) eqn:Hhas; simpl in Hrun; [done|].
  inv Hrun. split_and!; try done.
  - unfold contents, getSyncQueue. simpl. apply contents_push.
    intros l Hl. by apply wf_refs.
  - simpl. by rewrite Hdb.
Qed.

(** A resolved [addToSyncQueue] in general: the array it appends to is
    the one of the call, or the one loaded from the store when a load
    was pending or the call had to initialise the service. *)
Lemma add_resolved_pending h ty act dat s k s' :
  consistent s -> addToSyncQueue h ty act dat s = (Resolved k, s') ->
  k = make_id h ∧ store_has k (disk s) = false ∧
  disk s' = store_insert (syncItem h ty act dat) (disk s) ∧
  contents s' =
    (match db s, loading s with Some _, O => contents s | _, _ => disk s end)
      ++ [syncItem h ty act dat] ∧
  db s' ≠ None.
Proof.
  intros Hc Hadd.
  assert (Hgo : ∀ t hd, consistent t -> db t = Some hd -> disk t = disk s ->
    addToSyncQueue h ty act dat t = (Resolved k, s') ->
    k = make_id h ∧ store_has k (disk s) = false ∧
    disk s' = store_insert (syncItem h ty act dat) (disk s) ∧
    contents s' = contents (settle t) ++ [syncItem h ty act dat] ∧ db s' ≠ None).
  { intros t hd Ht Hdb Hd Hrun. rewrite add_settle in Hrun by congruence.
    destruct (settle_spec t) as (Hd' & Hdb' & _).
    rewrite <- Hd, <- Hd'.
    apply (add_resolved_settled h ty act dat (settle t) hd);
      [by apply wf_settle|congruence|done]. }
  destruct (db s) as [hd|] eqn:Hdb.
  - destruct (Hgo s hd Hc Hdb eq_refl Hadd) as (? & ? & ? & Hcs & ?).
    split_and!; try done. rewrite Hcs. f_equal.
    destruct (loading s) eqn:Hl; [by rewrite settle_settled|].
    apply contents_settle. lia.
  - rewrite add_closed in Hadd by done. destruct (opens h); [|done].
    destruct (Hgo (snd (init true s)) posOfflineDb) as (? & ? & ? & Hcs & ?);
      [by apply consistent_init|done|done|done|].
    split_and!; try done. rewrite Hcs. f_equal.
    by rewrite contents_settle.
Qed.

(** A resolved [addToSyncQueue] on a well-formed state. *)
Lemma add_resolved h ty act dat s k s' :
  wf s -> addToSyncQueue h ty act dat s = (Resolved k, s') ->
  k = make_id h ∧ store_has k (disk s) = false ∧
  disk s' = store_insert (syncItem h ty act dat) (disk s) ∧
  contents s' =
    (match db s with Some _ => contents s | None => disk s end)
      ++ [syncItem h ty act dat] ∧
  db s' ≠ None.
Proof.
  intros Hwf Hadd.
  destruct (add_resolved_pending h ty act dat s k s' (wf_consistent s Hwf) Hadd)
    as (? & ? & ? & Hc & ?).
  rewrite (wf_settled s Hwf) in Hc. split_and!; done.
Qed.

Lemma add_resolved_wf h ty act dat s k s' :
  consistent s -> addToSyncQueue h ty act dat s = (Resolved k, s') -> wf s'.
Proof.
  intros Hc Hadd.
  replace s' with (snd (addToSyncQueue h ty act dat s)) by (by rewrite Hadd).
  destruct (db s) as [hd|] eqn:Hdb.
  - apply wf_add_settles; [done|congruence].
  - rewrite add_closed in Hadd |- * by done. destruct (opens h); [|done].
    apply wf_add_settles; [by apply consistent_init|done].
Qed.

(** Over an empty store the array is empty. *)
Lemma co_empty_store s : consistent s -> disk s = [] -> syncQueue s = [].
Proof.
  intros Hc Hd. apply elem_of_nil_inv. intros l Hl.
  destruct (co_mirror s Hc l Hl) as (x & _ & Hx). rewrite Hd in Hx.
  by apply not_elem_of_nil in Hx.
Qed.

(** ** FIFO order *)

(** A replay pass keeps the queued operations in their order: what it
    leaves is, up to the retry counters, a sub-sequence of what it found. *)
Lemma sync_keeps_order online f d s :
  wf s ->
  reset_retries <$> contents (fst (syncWhenOnline online f d s))
    `sublist_of` reset_retries <$> contents s.
Proof.
  intros Hwf. destruct online; [|done].
  destruct (sync_pass f d s Hwf) as (s' & -> & _ & _ & Hq & _ & Hheap).
  simpl. unfold contents, getSyncQueue. rewrite Hq.
  assert (Hval : ∀ l, l ∈ syncQueue s -> is_Some (heap s !! l))
    by (intros l Hl; by apply wf_refs).
  assert (Hh : ∀ l, l ∈ syncQueue s -> heap s' !! l = after_attempt f d <$> heap s !! l).
  { intros l Hl. by rewrite Hheap, decide_True. }
  clear Hq Hheap.
  generalize (removed_ids f d (heap s) (syncQueue s)). intros ks.
  induction (syncQueue s) as [|l q IH]; [done|].
  destruct (Hval l) as [o Ho]; [by left|].
  assert (IH' : reset_retries <$>
      omap (deref (heap s')) (filter (λ l0, id_of (heap s) l0 ∉ Some <$> ks) q)
      `sublist_of` reset_retries <$> omap (deref (heap s)) q).
  { apply IH; intros l' Hl'; [apply Hval|apply Hh]; by right. }
  assert (Hd : omap (deref (heap s)) (l :: q) = o :: omap (deref (heap s)) q).
  { csimpl. unfold deref at 1. by rewrite Ho. }
  rewrite Hd, fmap_cons, filter_cons. case_decide.
  - assert (Hd' : ∀ q', omap (deref (heap s')) (l :: q')
                        = after_attempt f d o :: omap (deref (heap s')) q').
    { intros q'. csimpl. unfold deref at 1. rewrite Hh by left. by rewrite Ho. }
    rewrite Hd', fmap_cons. unfold after_attempt at 1. rewrite reset_iter_incr.
    by apply sublist_skip.
  - by apply sublist_cons.
Qed.

Lemma wf_perform c s : wf s -> wf (fst (perform c s)).
Proof.
  intros Hwf. destruct c as [h ty act dat|deletes k]; cbn [perform].
  - pose proof (wf_add h ty act dat s Hwf) as Hwf1.
    by destruct (addToSyncQueue h ty act dat s) as [[k|e] s1].
  - pose proof (wf_remove deletes k s Hwf) as Hwf1.
    by destruct (removeFromSyncQueue deletes k s) as [[[]|e] s1].
Qed.

Lemma run_cons c cs s :
  run (c :: cs) s =
  (fst (run cs (fst (perform c s))),
   snd (perform c s) ++ snd (run cs (fst (perform c s)))).
Proof.
  cbn [run]. destruct (perform c s) as [s1 e1]. cbn [fst snd].
  by destruct (run cs s1) as [s2 e2].
Qed.

Lemma wf_run cs : ∀ s, wf s -> wf (fst (run cs s)).
Proof.
  induction cs as [|c cs IH]; intros s Hwf; [done|].
  rewrite run_cons. simpl. by apply IH, wf_perform.
Qed.

(** One call on an initialised service, seen from [getSyncQueue]. *)
Lemma perform_open c s :
  wf s -> db s ≠ None ->
  db (fst (perform c s)) ≠ None ∧
  contents (fst (perform c s)) =
    filter (λ o, id o ∉ removed_in (snd (perform c s))) (contents s)
      ++ survivors (snd (perform c s)).
Proof.
  intros Hwf Hdb. pose proof (wf_settled s Hwf) as Hl.
  assert (Hsame : contents s = filter (λ o, id o ∉ []) (contents s) ++ []).
  { rewrite app_nil_r. symmetry. apply filter_all. intros o _. apply not_elem_of_nil. }
  destruct (db s) as [hd|] eqn:Hdb'; [clear Hdb|done].
  destruct c as [h ty act dat|deletes k]; cbn [perform].
  - destruct (addToSyncQueue h ty act dat s) as [[k|e] s1] eqn:Hadd.
    + destruct (add_resolved h ty act dat s k s1 Hwf Hadd) as (_ & _ & _ & Hc & Hdb1).
      rewrite Hdb' in Hc. simpl. split; [done|]. rewrite Hc. f_equal.
      symmetry. apply filter_all. intros o _. apply not_elem_of_nil.
    + rewrite (add_open _ _ _ _ _ hd Hdb' Hl) in Hadd.
      assert (s1 = s) as ->.
      { destruct (writes h && negb (store_has (make_id h) (disk s))); by inv Hadd. }
      simpl. split; [by rewrite Hdb'|done].
  - rewrite (remove_settled _ _ _ hd) by done. destruct deletes; simpl.
    + split; [by rewrite Hdb'|]. rewrite app_nil_r.
      unfold contents, getSyncQueue. simpl. rewrite contents_filter.
      apply list_filter_iff. intros o. rewrite list_elem_of_singleton. done.
    + split; [by rewrite Hdb'|done].
Qed.

Lemma removed_in_app a b : removed_in (a ++ b) = removed_in a ++ removed_in b.
Proof.
  induction a as [|[o|k] a IH]; simpl; [done|done|by rewrite IH].
Qed.

Lemma survivors_app a b :
  survivors (a ++ b) = filter (λ o, id o ∉ removed_in b) (survivors a) ++ survivors b.
Proof.
  induction a as [|[o|k] a IH]; simpl; [done| |done].
  rewrite removed_in_app.
  destruct (decide (id o ∈ removed_in a)) as [Ha|Ha].
  - rewrite decide_True by (apply elem_of_app; by left). done.
  - destruct (decide (id o ∈ removed_in b)) as [Hb|Hb].
    + rewrite decide_True by (apply elem_of_app; by right).
      by rewrite filter_cons_False by (intros HP; by apply HP).
    + rewrite decide_False by (rewrite elem_of_app; tauto).
      rewrite filter_cons_True by done. simpl. by rewrite IH.
Qed.

(** Any sequence of calls on an initialised service, seen from
    [getSyncQueue]: the old entries that no call removed, then the
    entries enqueued by the calls that no later call removed. *)
Lemma run_open cs : ∀ s,
  wf s -> db s ≠ None ->
  db (fst (run cs s)) ≠ None ∧
  contents (fst (run cs s)) =
    filter (λ o, id o ∉ removed_in (snd (run cs s))) (contents s)
      ++ survivors (snd (run cs s)).
Proof.
  induction cs as [|c cs IH]; intros s Hwf Hdb.
  - simpl. split; [done|]. rewrite app_nil_r. symmetry. apply filter_all.
    intros o _. apply not_elem_of_nil.
  - destruct (perform_open c s Hwf Hdb) as [Hdb1 Hc1].
    destruct (IH _ (wf_perform c s Hwf) Hdb1) as [Hdb2 Hc2].
    rewrite run_cons. simpl. split; [done|].
    rewrite Hc2, Hc1, removed_in_app, survivors_app, filter_app, list_filter_filter.
    rewrite <- app_assoc. f_equal. apply list_filter_iff. intros o.
    rewrite not_elem_of_app. tauto.
Qed.


(** C3.  Starting from an initialised service, after any sequence of
    enqueue and remove calls [getSyncQueue] holds: the operations that
    were queued before and whose id none of the calls removed, in their
    old order, followed by the operations enqueued by the calls whose id
    no later call removed, in the order of their enqueue calls.  Entries
    are only appended at the end or deleted; a replay pass, too, leaves a
    sub-sequence of the entries it found.  Their relative order never
    changes. *)
Theorem fifo_order cs : ∀ s,
  wf s -> db s ≠ None ->
  contents (fst (run cs s)) =
    filter (λ o, id o ∉ removed_in (snd (run cs s))) (contents s)
      ++ survivors (snd (run cs s)) ∧
  ∀ online f d,
    reset_retries <$> contents (fst (syncWhenOnline online f d (fst (run cs s))))
      `sublist_of` reset_retries <$> contents (fst (run cs s)).
Proof.
  intros s Hwf Hdb. split.
  - by apply run_open.
  - intros online f d. by apply sync_keeps_order, wf_run.
Qed.

(** ** Delivery when submit accepts everything *)


Lemma all_accepted_empties f d s :
  (∀ x, f x = Resolved true) -> (∀ k, d k = true) -> wf s ->
  syncQueue (fst (syncWhenOnline true f d s)) = [] ∧
  (db s ≠ None ∨ disk s = [] -> disk (fst (syncWhenOnline true f d s)) = []).
Proof.
  intros Hf Hd Hwf.
  assert (Hrem : ∀ o, attempt_removes f d o = true).
  { intros o. unfold attempt_removes. by rewrite Hf, Hd. }
  split.
  - apply elem_of_nil_inv. intros l Hl.
    assert (Hl0 : l ∈ syncQueue s).
    { destruct (sync_pass f d s Hwf) as (s' & Hrun & _ & _ & Hq & _).
      rewrite Hrun in Hl. simpl in Hl. rewrite Hq in Hl.
      by apply list_elem_of_filter in Hl as [_ Hl]. }
    destruct (wf_refs s l Hwf Hl0) as [o Ho].
    destruct (sync_pass_own f d s l o Hwf Hl0 Ho) as (_ & Hq & _).
    apply Hq in Hl. by rewrite Hrem in Hl.
  - intros Hor. destruct (sync_pass f d s Hwf) as (s' & -> & _ & Hdisk & _). simpl.
    rewrite Hdisk. apply filter_none. intros r Hr Hk. apply Hk.
    destruct Hor as [Hdb|Hd0]; [|rewrite Hd0 in Hr; by apply not_elem_of_nil in Hr].
    pose proof (wf_cover s Hwf Hdb r Hr) as Hc.
    apply list_elem_of_fmap in Hc as (l & Hl & Hlq).
    destruct (wf_refs s l Hwf Hlq) as [o Ho].
    unfold id_of in Hl. rewrite Ho in Hl. simpl in Hl.
    apply elem_of_removed_ids. exists l, o. split_and!; try done. congruence.
Qed.




(** ** Failure of [addToSyncQueue] *)

(** C7 (as amended).  [addToSyncQueue] rejects exactly when one of its
    storage requests fails, never because of the size or content of the
    queue.  When it rejects, the store is unchanged and nothing is
    enqueued.  If the database was open at the call and no load was
    pending, the whole state, and so the in-memory array, is as before
    the call.  Otherwise the state changes only by the loads that the
    request waited for: with the database open and a load pending, the
    state is the one with the pending loads answered; if the call had to
    open the database first, the state is as before the call when the
    open failed, and otherwise as the initialisation and its load left
    it.  In both cases the array then holds the records of the store. *)
Theorem enqueue_rejection_atomic h ty act dat s :
  ((∃ e, fst (addToSyncQueue h ty act dat s) = RejectedWith e) <-> storage_fails h s) ∧
  (∀ e, fst (addToSyncQueue h ty act dat s) = RejectedWith e ->
     disk (snd (addToSyncQueue h ty act dat s)) = disk s ∧
     (db s ≠ None -> loading s = 0%nat -> snd (addToSyncQueue h ty act dat s) = s) ∧
     (db s ≠ None -> snd (addToSyncQueue h ty act dat s) = settle s) ∧
     (db s ≠ None -> loading s ≠ 0%nat ->
        contents (snd (addToSyncQueue h ty act dat s)) = disk s) ∧
     (db s = None ->
        snd (addToSyncQueue h ty act dat s)
        = if opens h then settle (snd (init true s)) else s) ∧
     (db s = None -> opens h = true ->
        contents (snd (addToSyncQueue h ty act dat s)) = disk s)).
Proof.
  assert (Hopen : ∀ t hd, db t = Some hd ->
    ((∃ e, fst (addToSyncQueue h ty act dat t) = RejectedWith e) <->
       writes h = false ∨ store_has (make_id h) (disk t) = true) ∧
    (∀ e, fst (addToSyncQueue h ty act dat t) = RejectedWith e ->
       snd (addToSyncQueue h ty act dat t) = settle t)).
  { intros t hd Hdb. rewrite add_settle by congruence.
    destruct (settle_spec t) as (Hd & Hdb' & Hl & _). rewrite Hdb in Hdb'.
    rewrite (add_open _ _ _ _ _ hd Hdb' Hl), Hd.
    destruct (writes h), (store_has (make_id h) (disk t)); simpl.
    - split; [|done]. split; [auto|eauto].
    - split; [|done]. split; [intros [e He]; done|intros [?|?]; done].
    - split; [|done]. split; [auto|eauto].
    - split; [|done]. split; [auto|eauto]. }
  unfold storage_fails. destruct (db s) as [hd|] eqn:Hdb.
  - destruct (Hopen s hd Hdb) as [Hiff Hsame]. split.
    + rewrite Hiff. split; [auto|]. intros [[? _]|?]; [done|auto].
    + intros e He. rewrite (Hsame e He).
      destruct (settle_spec s) as (Hd & _). split_and!; try done.
      * intros _ Hl. by apply settle_settled.
      * intros _ Hl. by apply contents_settle.
  - rewrite add_closed by done. destruct (opens h) eqn:Ho.
    + destruct (Hopen (snd (init true s)) posOfflineDb eq_refl) as [Hiff Hsame].
      change (disk (snd (init true s))) with (disk s) in Hiff. split.
      * rewrite Hiff. split; [auto|]. intros [[_ ?]|?]; [done|auto].
      * intros e He. rewrite (Hsame e He).
        destruct (settle_spec (snd (init true s))) as (Hd & _).
        split_and!; try done. intros _ _. by rewrite contents_settle.
    + simpl. split; [split; eauto|]. intros e _. split_and!; done.
Qed.

(** ** Idempotence of [removeFromSyncQueue] *)

Lemma remove_absent deletes k s :
  loading s = 0%nat ->
  Some k ∉ id_of (heap s) <$> syncQueue s -> k ∉ id <$> disk s ->
  snd (removeFromSyncQueue deletes k s) = s.
Proof.
  intros Hl Hq Hd.
  destruct (db s) as [hd|] eqn:Hdb; [|unfold removeFromSyncQueue; by rewrite Hdb].
  rewrite (remove_settled _ _ _ hd) by done. destruct deletes; [|done]. simpl.
  rewrite store_delete_absent by done.
  rewrite filter_all.
  - destruct s. simpl in *. by rewrite Hdb.
  - intros l Hl' E. apply Hq. rewrite <- E. apply list_elem_of_fmap. eauto.
Qed.

(** C8.  In a well-formed state, removing an id that no queued
    operation carries leaves the state, array and store, as it is; after
    a resolved removal of an id, a second removal of the same id leaves
    the state as the first one left it; and the call rejects only when
    the store fails its delete request: with the request performed it
    resolves, whether or not the id is present. *)
Theorem remove_idempotent deletes deletes' k s :
  wf s ->
  (k ∉ id <$> contents s -> snd (removeFromSyncQueue deletes k s) = s) ∧
  (fst (removeFromSyncQueue deletes k s) = Resolved () ->
     snd (removeFromSyncQueue deletes' k (snd (removeFromSyncQueue deletes k s)))
     = snd (removeFromSyncQueue deletes k s)) ∧
  (deletes = true -> fst (removeFromSyncQueue deletes k s) = Resolved ()).
Proof.
  intros Hwf. pose proof (wf_settled s Hwf) as Hld. split_and!.
  - intros Hk.
    assert (Hq : Some k ∉ id_of (heap s) <$> syncQueue s).
    { rewrite ids_contents by (intros l Hl; by apply wf_refs).
      rewrite list_elem_of_fmap. intros (k' & ? & Hk'). by simplify_eq. }
    destruct (db s) as [hd|] eqn:Hdb.
    + apply remove_absent; [done|done|].
      rewrite list_elem_of_fmap. intros (r & -> & Hr). apply Hq.
      apply (wf_cover s Hwf); [by rewrite Hdb|done].
    + unfold removeFromSyncQueue. by rewrite Hdb.
  - intros Hres. destruct (db s) as [hd|] eqn:Hdb.
    + rewrite (remove_settled deletes k s hd Hdb Hld) in Hres.
      rewrite (remove_settled deletes k s hd Hdb Hld).
      destruct deletes; [|done].
      apply remove_absent; simpl.
      * done.
      * rewrite list_elem_of_fmap. intros (l & Hl & Hin).
        apply list_elem_of_filter in Hin as [Hne _]. congruence.
      * apply store_delete_gone.
    + unfold removeFromSyncQueue. rewrite Hdb. simpl. by rewrite Hdb.
  - intros ->. unfold removeFromSyncQueue. by destruct (db s).
Qed.

(** ** A submit that throws *)

(** C2 (the code departs from it).  When submit rejects for a queued
    operation, the pass executes [item.retries++] in its [catch] block and
    nothing else: the operation stays in the array and its record stays
    in the store whatever the new counter is, also when it exceeds 5. *)
Theorem thrown_submit_never_removes f d s l o e :
  wf s -> l ∈ syncQueue s -> heap s !! l = Some o -> f o = RejectedWith e ->
  l ∈ syncQueue (fst (syncWhenOnline true f d s)) ∧
  heap (fst (syncWhenOnline true f d s)) !! l = Some (incr_retries o) ∧
  id o ∈ id <$> disk (fst (syncWhenOnline true f d s)).
Proof.
  intros Hwf Hl Ho Hf.
  assert (Hrem : attempt_removes f d o = false)
    by (unfold attempt_removes; by rewrite Hf).
  destruct (sync_pass_own f d s l o Hwf Hl Ho) as (Hh & Hq & _).
  split_and!.
  - by apply Hq.
  - rewrite Hh. unfold after_attempt, attempt_bumps. by rewrite Hf.
  - apply Hq in Hrem.
    destruct (wf_mirror _ (wf_sync true f d s Hwf) l Hrem) as (o' & Ho' & Hd).
    rewrite Hh in Ho'. inv Ho'.
    apply list_elem_of_fmap. exists (reset_retries (after_attempt f d o)).
    split; [|done]. unfold after_attempt. simpl. by rewrite id_iter_incr.
Qed.

(** ** Reload *)

Lemma ltb_asym a b : String.ltb a b = true -> String.ltb b a = false.
Proof.
  intros Hab. destruct (String.ltb b a) eqn:Hba; [|done].
  pose proof (ltb_trans _ _ _ Hab Hba) as Haa. by rewrite ltb_irrefl in Haa.
Qed.

(** C6 (as amended).  Enqueue three operations on a service whose store
    is empty (initialised or not, its load answered or not), then reload
    the page.  Before the reload [getSyncQueue]
    holds the three operations in enqueue order.  When the [init] of the
    restarted service resolves, its load is still pending:
    [getSyncQueue] is empty, and the store holds the three records.  Once
    the load is answered, [getSyncQueue] holds the same three operations,
    each with [retries] 0, in ascending order of their ids, the order in
    which the store yields them; this is the enqueue order when the three
    ids were generated in ascending order. *)
Theorem durability_round_trip
    h1 ty1 act1 dat1 h2 ty2 act2 dat2 h3 ty3 act3 dat3 s k1 s1 k2 s2 k3 s3 :
  consistent s -> disk s = [] ->
  addToSyncQueue h1 ty1 act1 dat1 s = (Resolved k1, s1) ->
  addToSyncQueue h2 ty2 act2 dat2 s1 = (Resolved k2, s2) ->
  addToSyncQueue h3 ty3 act3 dat3 s2 = (Resolved k3, s3) ->
  let o1 := syncItem h1 ty1 act1 dat1 in
  let o2 := syncItem h2 ty2 act2 dat2 in
  let o3 := syncItem h3 ty3 act3 dat3 in
  contents s3 = [o1; o2; o3] ∧
  getSyncQueue (reload true s3) = [] ∧
  loading (reload true s3) = 1%nat ∧
  disk (reload true s3) ≡ₚ [o1; o2; o3] ∧
  contents (loadSyncQueue_onsuccess (reload true s3)) ≡ₚ [o1; o2; o3] ∧
  StronglySorted key_lt (contents (loadSyncQueue_onsuccess (reload true s3))) ∧
  Forall (λ o, retries o = 0) (contents (loadSyncQueue_onsuccess (reload true s3))) ∧
  (String.ltb k1 k2 = true -> String.ltb k2 k3 = true ->
     contents (loadSyncQueue_onsuccess (reload true s3)) = [o1; o2; o3]).
Proof.
  intros Hco Hempty H1 H2 H3 o1 o2 o3.
  pose proof (add_resolved_wf _ _ _ _ _ _ _ Hco H1) as Hwf1.
  assert (Hwf2 : wf s2).
  { replace s2 with (snd (addToSyncQueue h2 ty2 act2 dat2 s1)) by (by rewrite H2).
    by apply wf_add. }
  assert (Hwf3 : wf s3).
  { replace s3 with (snd (addToSyncQueue h3 ty3 act3 dat3 s2)) by (by rewrite H3).
    by apply wf_add. }
  destruct (add_resolved_pending _ _ _ _ _ _ _ Hco H1) as (-> & _ & Hd1 & Hc1 & Hdb1).
  destruct (add_resolved _ _ _ _ _ _ _ Hwf1 H2) as (-> & _ & Hd2 & Hc2 & Hdb2).
  destruct (add_resolved _ _ _ _ _ _ _ Hwf2 H3) as (-> & _ & Hd3 & Hc3 & Hdb3).
  assert (Hc0 : match db s, loading s with
                | Some _, O => contents s
                | _, _ => disk s
                end = []).
  { unfold contents, getSyncQueue. rewrite (co_empty_store s Hco Hempty), Hempty.
    by repeat case_match. }
  rewrite Hc0 in Hc1. simpl in Hc1.
  destruct (db s1) as [hd1|]; [|done]. destruct (db s2) as [hd2|]; [|done].
  rewrite Hc1 in Hc2. rewrite Hc2 in Hc3. simpl in Hc3.
  rewrite Hempty in Hd1. rewrite Hd1 in Hd2. rewrite Hd2 in Hd3.
  fold o1 in Hd1, Hd2, Hd3. fold o2 in Hd2, Hd3. fold o3 in Hd3.
  rewrite contents_reload.
  assert (Hperm : disk s3 ≡ₚ [o1; o2; o3]).
  { rewrite Hd3, !store_insert_perm. simpl. solve_Permutation. }
  split_and!.
  - exact Hc3.
  - done.
  - done.
  - exact Hperm.
  - exact Hperm.
  - apply Hwf3.
  - apply Hwf3.
  - intros H12 H23. rewrite Hd3. simpl.
    change (id o1) with (make_id h1). change (id o2) with (make_id h2).
    change (id o3) with (make_id h3).
    rewrite (ltb_asym _ _ H12). simpl.
    rewrite (ltb_asym _ _ (ltb_trans _ _ _ H12 H23)), (ltb_asym _ _ H23). done.
Qed.

(** * Further properties of the queue *)

(** ** What every reachable state satisfies *)

Lemma co_refs s l : consistent s -> l ∈ syncQueue s -> is_Some (heap s !! l).
Proof. intros Hc Hl. destruct (co_mirror s Hc l Hl) as (o & Ho & _). eauto. Qed.

Lemma co_contents_nodup s : consistent s -> NoDup (id <$> contents s).
Proof.
  intros Hc. apply (NoDup_fmap_1 Some). unfold contents, getSyncQueue.
  rewrite <- ids_contents; [apply Hc|]. intros l Hl. by apply co_refs.
Qed.

Lemma co_contents_stored s o :
  consistent s -> o ∈ contents s -> reset_retries o ∈ disk s.
Proof.
  intros Hc Ho. apply elem_of_contents in Ho as (l & Hl & Ho).
  destruct (co_mirror s Hc l Hl) as (o' & Ho' & Hd). congruence.
Qed.

Lemma length_contents s :
  consistent s -> length (contents s) = length (getSyncQueue s).
Proof.
  intros Hc. unfold contents, getSyncQueue.
  assert (Hval : ∀ l, l ∈ syncQueue s -> is_Some (heap s !! l))
    by (intros l Hl; by apply co_refs).
  induction (syncQueue s) as [|l q IH]; [done|].
  destruct (Hval l) as [o Ho]; [by left|].
  csimpl. unfold deref at 1. rewrite Ho. simpl. f_equal.
  apply IH. intros l' Hl'. apply Hval. by right.
Qed.

(** The array mirrors the store, unless it is the empty array of a start
    whose load is pending. *)
Lemma co_mirror_perm s :
  consistent s -> db s ≠ None -> loading s = 0%nat ∨ syncQueue s ≠ [] ->
  reset_retries <$> contents s ≡ₚ disk s.
Proof.
  intros Hc Hdb Hor.
  assert (Hids : id <$> (reset_retries <$> contents s) = id <$> contents s).
  { rewrite <- list_fmap_compose. by apply list_fmap_ext. }
  apply NoDup_Permutation.
  - apply (NoDup_fmap_1 id). rewrite Hids. by apply co_contents_nodup.
  - apply (NoDup_fmap_1 id), sorted_nodup_ids, Hc.
  - intros x. split.
    + intros Hx. apply list_elem_of_fmap in Hx as (o & -> & Ho).
      by apply co_contents_stored.
    + intros Hx. pose proof (co_cover s Hc Hdb Hor x Hx) as Hcv.
      apply list_elem_of_fmap in Hcv as (l & Hl & Hlq).
      destruct (co_mirror s Hc l Hlq) as (o & Ho & Hd).
      unfold id_of in Hl. rewrite Ho in Hl. simpl in Hl. simplify_eq.
      assert (reset_retries o = x) as <-.
      { pose proof (sorted_nodup_ids _ (co_sorted s Hc)) as Hnd.
        apply list_elem_of_lookup in Hd as [i Hi]. apply list_elem_of_lookup in Hx as [j Hj].
        assert (i = j) as ->; [|congruence].
        eapply NoDup_lookup; [exact Hnd| |].
        - rewrite list_lookup_fmap, Hi. done.
        - rewrite list_lookup_fmap, Hj. simpl. by rewrite Hl. }
      apply list_elem_of_fmap. exists o. split; [done|].
      apply elem_of_contents. eauto.
Qed.

Lemma mirror_perm s :
  wf s -> db s ≠ None -> reset_retries <$> contents s ≡ₚ disk s.
Proof.
  intros Hwf Hdb. apply co_mirror_perm; [by apply wf_consistent|done|].
  left. apply Hwf.
Qed.

Lemma perm_ids (q d : list PendingSync) k :
  reset_retries <$> q ≡ₚ d -> k ∈ id <$> q <-> k ∈ id <$> d.
Proof.
  intros Hp. rewrite <- Hp, <- list_fmap_compose.
  rewrite !list_elem_of_fmap. split; intros (o & -> & Ho); by exists o.
Qed.

Lemma mirror_ids s k :
  wf s -> db s ≠ None -> k ∈ id <$> contents s <-> k ∈ id <$> disk s.
Proof. intros Hwf Hdb. by apply perm_ids, mirror_perm. Qed.

(** X1.  In every state the service can reach, loads pending or not,
    the queued operations have pairwise distinct ids and each of them
    has its record in the store.  Before initialisation the array is
    empty and no load is pending.  On an initialised service the ids in
    the array are exactly the keys of the store, and the array holds as
    many entries as the store holds records, once no load is pending,
    and before that unless the array is empty: the one state in which
    array and store differ is the start of a page whose load is not
    answered yet.  Answering the pending loads always yields an array
    that mirrors the store. *)
Theorem queue_mirrors_store s :
  reachable s ->
  NoDup (id <$> contents s) ∧
  (∀ k, k ∈ id <$> contents s -> k ∈ id <$> disk s) ∧
  (db s = None -> getSyncQueue s = [] ∧ loading s = 0%nat) ∧
  (db s ≠ None -> loading s = 0%nat ∨ getSyncQueue s ≠ [] ->
     (∀ k, k ∈ id <$> contents s <-> k ∈ id <$> disk s) ∧
     length (getSyncQueue s) = length (disk s)) ∧
  (db s ≠ None -> reset_retries <$> contents (settle s) ≡ₚ disk s).
Proof.
  intros Hr. pose proof (reachable_consistent s Hr) as Hc. split_and!.
  - by apply co_contents_nodup.
  - intros k Hk. apply list_elem_of_fmap in Hk as (o & -> & Ho).
    apply list_elem_of_fmap. exists (reset_retries o). split; [done|].
    by apply co_contents_stored.
  - apply Hc.
  - intros Hdb Hor. pose proof (co_mirror_perm s Hc Hdb Hor) as Hp. split.
    + intros k. by apply perm_ids.
    + by rewrite <- Hp, length_fmap, length_contents.
  - intros Hdb. destruct (settle_spec s) as (Hd & Hdb' & _).
    rewrite <- Hd. apply mirror_perm; [by apply wf_settle|congruence].
Qed.

(** X2.  [init] does not wait for its load.  When the [init] of a
    reloaded page resolves, the array is still empty; when a further
    [init] on the running service resolves, the array is still the old
    one, counters included; in both cases a load is pending.  Once it is
    answered the array holds the operations that were queued, each with
    its retry counter back at 0, in ascending order of their ids, the
    same after the reload and after the further [init]. *)
Theorem reload_restores_queue s :
  reachable s -> db s ≠ None -> loading s = 0%nat ->
  getSyncQueue (reload true s) = [] ∧
  contents (snd (init true s)) = contents s ∧
  loading (reload true s) = 1%nat ∧
  loading (snd (init true s)) = 1%nat ∧
  contents (loadSyncQueue_onsuccess (reload true s)) ≡ₚ reset_retries <$> contents s ∧
  StronglySorted key_lt (contents (loadSyncQueue_onsuccess (reload true s))) ∧
  contents (loadSyncQueue_onsuccess (snd (init true s)))
    = contents (loadSyncQueue_onsuccess (reload true s)).
Proof.
  intros Hr Hdb Hl. pose proof (reachable_wf s Hr Hl) as Hwf.
  rewrite contents_reload. split_and!; try done.
  - simpl. by rewrite Hl.
  - symmetry. by apply mirror_perm.
  - apply Hwf.
  - by rewrite contents_onsuccess.
Qed.

(** ** Enqueue *)

(** X3.  A resolved [addToSyncQueue] returns the id of the operation it
    appended.  The list then holds what it held before (what the store
    held, when the call first had to initialise the service or when a
    load was still pending) followed by the new operation, whose
    [retries] is 0 and whose [timestamp] is the clock's answer; its
    record is in the store and its id was not; no load is pending any
    more. *)
Theorem enqueue_appends h ty act dat s k s' :
  reachable s -> addToSyncQueue h ty act dat s = (Resolved k, s') ->
  contents s' =
    (match db s, loading s with Some _, O => contents s | _, _ => disk s end)
      ++ [syncItem h ty act dat] ∧
  id (syncItem h ty act dat) = k ∧
  retries (syncItem h ty act dat) = 0 ∧
  timestamp (syncItem h ty act dat) = now2 h ∧
  syncItem h ty act dat ∈ disk s' ∧
  (k ∉ id <$> disk s) ∧
  loading s' = 0%nat.
Proof.
  intros Hr Hadd. pose proof (reachable_consistent s Hr) as Hcs.
  destruct (add_resolved_pending h ty act dat s k s' Hcs Hadd)
    as (-> & Hhas & Hd & Hc & _).
  split_and!; try done.
  - rewrite Hd. apply elem_of_store_insert. by left.
  - by apply store_has_false.
  - by apply (add_resolved_wf h ty act dat s (make_id h) s').
Qed.

Lemma store_delete_insert r d :
  id r ∉ id <$> d -> store_delete (id r) (store_insert r d) = d.
Proof.
  unfold store_delete. induction d as [|x d IH]; intros Hfresh; simpl.
  - by rewrite filter_cons_False, filter_nil by (intros HP; by apply HP).
  - rewrite fmap_cons, not_elem_of_cons in Hfresh. destruct Hfresh as [Hne Hfresh].
    destruct (String.ltb (id r) (id x)).
    + rewrite filter_cons_False by (intros HP; by apply HP).
      apply (store_delete_absent (id r) (x :: d)).
      rewrite fmap_cons, not_elem_of_cons. done.
    + rewrite filter_cons_True by congruence. by rewrite IH.
Qed.

(** X4.  On an initialised service with no load pending, enqueueing an
    operation and then removing it by the id that [addToSyncQueue]
    returned gives back the list and the store as they were before the
    two calls. *)
Theorem enqueue_then_remove h ty act dat s k s1 :
  reachable s -> db s ≠ None -> loading s = 0%nat ->
  addToSyncQueue h ty act dat s = (Resolved k, s1) ->
  fst (removeFromSyncQueue true k s1) = Resolved () ∧
  contents (snd (removeFromSyncQueue true k s1)) = contents s ∧
  disk (snd (removeFromSyncQueue true k s1)) = disk s.
Proof.
  intros Hr Hdb Hl Hadd. pose proof (reachable_wf s Hr Hl) as Hwf.
  pose proof (add_resolved_wf _ _ _ _ _ _ _ (wf_consistent s Hwf) Hadd) as Hwf1.
  pose proof (wf_settled s1 Hwf1) as Hl1.
  destruct (add_resolved h ty act dat s k s1 Hwf Hadd) as (-> & Hhas & Hd & Hc & Hdb1).
  apply store_has_false in Hhas.
  destruct (db s) as [hd|] eqn:Hdbs; [|done].
  destruct (db s1) as [hd1|] eqn:Hdbs1; [|done].
  split_and!.
  - by rewrite (remove_settled _ _ _ hd1).
  - rewrite (contents_remove _ _ hd1 Hdbs1 Hl1), Hc, filter_app.
    rewrite filter_cons_False, filter_nil, app_nil_r by (intros HP; by apply HP).
    apply filter_all. intros o Ho E. apply Hhas.
    apply (mirror_ids s); [done|by rewrite Hdbs|].
    apply list_elem_of_fmap. eauto.
  - rewrite (remove_settled _ _ _ hd1) by done. simpl. rewrite Hd.
    by apply (store_delete_insert (syncItem h ty act dat)).
Qed.

(** X18.  The store refuses a second record under an id: repeating a
    resolved [addToSyncQueue] under the same answers of the clock and the
    random source rejects and leaves the array and the store as the
    first call left them. *)
Theorem enqueue_same_id_twice h h' ty act dat ty' act' dat' s k s1 :
  reachable s -> addToSyncQueue h ty act dat s = (Resolved k, s1) ->
  now1 h' = now1 h -> random36 h' = random36 h ->
  addToSyncQueue h' ty' act' dat' s1 = (RejectedWith RequestError, s1).
Proof.
  intros Hr Hadd Hn Hrnd. pose proof (reachable_consistent s Hr) as Hcs.
  pose proof (add_resolved_wf _ _ _ _ _ _ _ Hcs Hadd) as Hwf1.
  destruct (add_resolved_pending h ty act dat s k s1 Hcs Hadd)
    as (-> & _ & Hd & _ & Hdb).
  destruct (db s1) as [hd|] eqn:Hdb1; [|done].
  rewrite (add_open _ _ _ _ _ hd Hdb1 (wf_settled s1 Hwf1)).
  assert (Hid : make_id h' = make_id h) by (unfold make_id; by rewrite Hn, Hrnd).
  assert (store_has (make_id h') (disk s1) = true) as ->; [|by rewrite andb_false_r].
  unfold store_has. apply bool_decide_eq_true. rewrite Hid, Hd.
  apply list_elem_of_fmap. exists (syncItem h ty act dat). split; [done|].
  apply elem_of_store_insert. by left.
Qed.

(** ** The outcome of a replay pass *)

Lemma contents_after_pass f d s (h' : list PendingSync) (ks : list string) (q : list nat) :
  (∀ l, l ∈ q -> is_Some (heap s !! l)) ->
  (∀ l, l ∈ q -> h' !! l = after_attempt f d <$> heap s !! l) ->
  (∀ l o, l ∈ q -> heap s !! l = Some o ->
     id o ∈ ks <-> attempt_removes f d o = true) ->
  omap (deref h') (filter (λ l, id_of (heap s) l ∉ Some <$> ks) q) =
  after_attempt f d <$>
    filter (λ o, attempt_removes f d o = false) (omap (deref (heap s)) q).
Proof.
  induction q as [|l q IH]; intros Hval Hh Hks; [done|].
  destruct (Hval l) as [o Ho]; [by left|].
  assert (IH' : omap (deref h') (filter (λ l, id_of (heap s) l ∉ Some <$> ks) q) =
    after_attempt f d <$>
      filter (λ o, attempt_removes f d o = false) (omap (deref (heap s)) q)).
  { apply IH.
    - intros l' Hl'. apply Hval. by right.
    - intros l' Hl'. apply Hh. by right.
    - intros l' o' Hl'. apply Hks. by right. }
  assert (Hd : omap (deref (heap s)) (l :: q) = o :: omap (deref (heap s)) q).
  { csimpl. unfold deref at 1. by rewrite Ho. }
  assert (Hkeep : id_of (heap s) l ∉ Some <$> ks <-> attempt_removes f d o = false).
  { unfold id_of. rewrite Ho. simpl. rewrite <- not_true_iff_false.
    rewrite <- (Hks l o) by (done || by left).
    rewrite list_elem_of_fmap. split.
    - intros Hn Hin. apply Hn. eauto.
    - intros Hn (k & ? & Hk). by simplify_eq. }
  rewrite Hd. destruct (attempt_removes f d o) eqn:Hr.
  - rewrite filter_cons_False by (rewrite Hkeep; done).
    rewrite filter_cons_False by congruence. exact IH'.
  - rewrite filter_cons_True by (by rewrite Hkeep).
    rewrite filter_cons_True by congruence. rewrite fmap_cons, <- IH'.
    csimpl. unfold deref at 1. rewrite Hh by left. by rewrite Ho.
Qed.

(** X5.  After a replay pass that starts with no load pending, the list
    holds, in their old order, exactly the operations whose own attempt
    did not delete them: those whose submit resolved [false] with a new
    counter of at most 5, those whose submit threw, and those whose
    delete request failed.  Each of them carries the increments of its
    attempt; all others are gone. *)
Theorem pass_outcome f d s :
  reachable s -> loading s = 0%nat ->
  contents (fst (syncWhenOnline true f d s)) =
  after_attempt f d <$> filter (λ o, attempt_removes f d o = false) (contents s).
Proof.
  intros Hr Hld. pose proof (reachable_wf s Hr Hld) as Hwf.
  destruct (sync_pass f d s Hwf) as (s' & -> & _ & _ & Hq & _ & Hheap).
  simpl. unfold contents, getSyncQueue. rewrite Hq.
  apply contents_after_pass.
  - intros l Hl. by apply wf_refs.
  - intros l Hl. by rewrite Hheap, decide_True.
  - intros l o Hl Ho. by apply (removed_ids_own f d s l o).
Qed.

Lemma settle_keeps s l o : heap s !! l = Some o -> heap (settle s) !! l = Some o.
Proof.
  intros Ho. destruct (settle_spec s) as (_ & _ & _ & ext & ->).
  by apply lookup_app_l_Some.
Qed.

Lemma remove_keeps deletes k s l o :
  heap s !! l = Some o -> heap (snd (removeFromSyncQueue deletes k s)) !! l = Some o.
Proof.
  intros Ho. unfold removeFromSyncQueue. destruct (db s); [|done].
  destruct deletes; simpl; by apply settle_keeps.
Qed.

Lemma bump_touches l s l' o :
  heap s !! l' = Some o ->
  heap (bump l s) !! l' = Some (if decide (l' = l) then incr_retries o else o).
Proof.
  intros Ho. simpl. destruct (decide (l' = l)) as [->|Hne].
  - by rewrite list_lookup_alter_eq, Ho.
  - by rewrite list_lookup_alter_ne.
Qed.

(** One iteration touches one object, whatever is pending. *)
Lemma sync_item_touches f d acc l l' o :
  heap (fst acc) !! l' = Some o ->
  ∃ o', heap (fst (sync_item f d acc l)) !! l' = Some o' ∧
    reset_retries o' = reset_retries o ∧ retries o <= retries o' ∧
    retries o' <= retries o + (if decide (l' = l) then 2 else 0).
Proof.
  destruct acc as [s calls]. simpl. intros Ho. unfold sync_item.
  assert (Hsame : ∃ o', heap s !! l' = Some o' ∧
    reset_retries o' = reset_retries o ∧ retries o <= retries o' ∧
    retries o' <= retries o + (if decide (l' = l) then 2 else 0)).
  { exists o. split_and!; [done|done|lia|]. case_decide; lia. }
  assert (Hrm : ∀ t k x, heap t !! l' = Some x ->
    heap (snd (removeFromSyncQueue (d k) k t)) !! l' = Some x ∧
    heap (bump l (snd (removeFromSyncQueue (d k) k t))) !! l'
      = Some (if decide (l' = l) then incr_retries x else x)).
  { intros t k x Hx. pose proof (remove_keeps (d k) k t l' x Hx) as Hk.
    split; [done|]. by apply bump_touches. }
  destruct (deref (heap s) l) as [item|]; [|done].
  destruct (f item) as [[|]|e]; simpl.
  - destruct (Hrm s (id item) o Ho) as [H1 H2].
    destruct (removeFromSyncQueue (d (id item)) (id item) s) as [[[]|e] s']; simpl in *.
    + exists o. split_and!; [done|done|lia|case_decide; lia].
    + eexists. split; [exact H2|]. case_decide; simpl; split_and!; done || lia.
  - pose proof (bump_touches l s l' o Ho) as Hb.
    destruct (5 <? retries item + 1); simpl.
    + destruct (Hrm (bump l s) (id item) _ Hb) as [H1 H2].
      destruct (removeFromSyncQueue (d (id item)) (id item) (bump l s)) as [[[]|e] s'];
        simpl in *.
      * eexists. split; [exact H1|]. case_decide; simpl; split_and!; done || lia.
      * eexists. split; [exact H2|]. case_decide; simpl; split_and!; done || lia.
    + eexists. split; [exact Hb|]. case_decide; simpl; split_and!; done || lia.
  - eexists. split; [by apply bump_touches|].
    case_decide; simpl; split_and!; done || lia.
Qed.

Lemma sync_loop_touches f d q : ∀ acc l' o,
  NoDup q -> heap (fst acc) !! l' = Some o ->
  ∃ o', heap (fst (fold_left (sync_item f d) q acc)) !! l' = Some o' ∧
    reset_retries o' = reset_retries o ∧ retries o <= retries o' ∧
    retries o' <= retries o + (if decide (l' ∈ q) then 2 else 0).
Proof.
  induction q as [|l q IH]; intros acc l' o Hnd Ho.
  - exists o. simpl. split_and!; [done|done|lia|lia].
  - apply NoDup_cons in Hnd as [Hl Hnd]. cbn [fold_left].
    destruct (sync_item_touches f d acc l l' o Ho) as (o1 & Ho1 & Hr1 & Hlo1 & Hhi1).
    destruct (IH (sync_item f d acc l) l' o1 Hnd Ho1) as (o2 & Ho2 & Hr2 & Hlo2 & Hhi2).
    exists o2. split_and!; [done|congruence|lia|].
    destruct (decide (l' = l)) as [->|Hne].
    + rewrite decide_False in Hhi2 by done. rewrite decide_True by left. lia.
    + destruct (decide (l' ∈ q)) as [Hin|Hnin].
      * rewrite decide_True by (by right). lia.
      * rewrite decide_False by (rewrite not_elem_of_cons; tauto). lia.
Qed.

(** X6.  A replay pass, online or not, with or without a load pending,
    changes nothing of an operation object but its retry counter, which
    it never lowers and raises by at most 2 (the increment of a [false]
    answer and the one of the [catch] block when the delete request then
    fails). *)
Theorem pass_touches_only_retries online f d s l o :
  reachable s -> heap s !! l = Some o ->
  ∃ o', heap (fst (syncWhenOnline online f d s)) !! l = Some o' ∧
    reset_retries o' = reset_retries o ∧
    retries o <= retries o' ∧ retries o' <= retries o + 2.
Proof.
  intros Hr Ho. pose proof (reachable_consistent s Hr) as Hc.
  assert (Hsame : ∃ o', heap s !! l = Some o' ∧ reset_retries o' = reset_retries o ∧
                    retries o <= retries o' ∧ retries o' <= retries o + 2).
  { exists o. split_and!; [done|done|lia|lia]. }
  unfold syncWhenOnline, getSyncQueue. destruct online; [|done].
  destruct (syncQueue s) as [|l0 q] eqn:Hq; [done|]. rewrite <- Hq.
  destruct (sync_loop_touches f d (syncQueue s) (s, []) l o) as (o' & Ho' & Hr' & Hlo & Hhi).
  - eapply NoDup_fmap_1, co_ids, Hc.
  - done.
  - exists o'. split_and!; [done|done|done|]. case_decide; lia.
Qed.

(** X7.  Delivery is at least once, not exactly once: when, in a pass
    that starts with no load pending, submit accepted an operation but
    the delete request failed, the operation stays in the list and in the
    store with its counter raised by one, and the next pass submits it
    again. *)
Theorem accepted_but_not_deleted f d f' d' s l o :
  reachable s -> loading s = 0%nat -> l ∈ syncQueue s -> heap s !! l = Some o ->
  f o = Resolved true -> d (id o) = false ->
  l ∈ syncQueue (fst (syncWhenOnline true f d s)) ∧
  heap (fst (syncWhenOnline true f d s)) !! l = Some (incr_retries o) ∧
  id o ∈ id <$> disk (fst (syncWhenOnline true f d s)) ∧
  incr_retries o ∈ snd (syncWhenOnline true f' d' (fst (syncWhenOnline true f d s))).
Proof.
  intros Hr Hld Hl Ho Hf Hd. pose proof (reachable_wf s Hr Hld) as Hwf.
  pose proof (wf_sync true f d s Hwf) as Hwf'.
  assert (Hrem : attempt_removes f d o = false)
    by (unfold attempt_removes; by rewrite Hf, Hd).
  assert (Haft : after_attempt f d o = incr_retries o)
    by (unfold after_attempt, attempt_bumps; by rewrite Hf, Hd).
  destruct (sync_pass_own f d s l o Hwf Hl Ho) as (Hh & Hq & _).
  rewrite Haft in Hh. apply Hq in Hrem.
  split_and!; [done|done| |].
  - destruct (wf_mirror _ Hwf' l Hrem) as (o' & Ho' & Hdisk).
    rewrite Hh in Ho'. inv Ho'.
    apply list_elem_of_fmap. by exists (reset_retries (incr_retries o)).
  - destruct (sync_pass f' d' _ Hwf') as (s'' & -> & _). simpl.
    apply elem_of_contents. eauto.
Qed.

(** X8.  An operation whose submit throws on every attempt is never
    dropped: after any number of passes, the first of which starts with
    no load pending, it is still in the list and in the store, its
    counter raised by one per pass, also beyond 5. *)
Theorem throwing_submit_keeps_forever f d n : ∀ s l o,
  (∀ x, ∃ e, f x = RejectedWith e) ->
  reachable s -> loading s = 0%nat -> l ∈ syncQueue s -> heap s !! l = Some o ->
  l ∈ syncQueue (replays n f d s) ∧
  retries <$> (heap (replays n f d s) !! l) = Some (retries o + N.of_nat n) ∧
  id o ∈ id <$> disk (replays n f d s).
Proof.
  induction n as [|n IH]; intros s l o Hf Hr Hld Hl Ho.
  - pose proof (reachable_wf s Hr Hld) as Hwf. cbn [replays]. rewrite Ho. simpl.
    split_and!; [done|f_equal; lia|].
    destruct (wf_mirror s Hwf l Hl) as (o' & Ho' & Hd).
    assert (o' = o) as -> by congruence.
    apply list_elem_of_fmap. by exists (reset_retries o).
  - pose proof (reachable_wf s Hr Hld) as Hwf. cbn [replays].
    destruct (Hf o) as [e He].
    assert (Hrem : attempt_removes f d o = false)
      by (unfold attempt_removes; by rewrite He).
    destruct (sync_pass_own f d s l o Hwf Hl Ho) as (Hh & Hq & _).
    assert (Haft : after_attempt f d o = incr_retries o)
      by (unfold after_attempt, attempt_bumps; by rewrite He).
    rewrite Haft in Hh. apply Hq in Hrem.
    destruct (IH (fst (syncWhenOnline true f d s)) l (incr_retries o) Hf)
      as (Hq' & Hr' & Hd'); [by apply reach_sync|by apply sync_pass_settled|done|done|].
    split_and!; [done| |done].
    rewrite Hr'. simpl. f_equal. lia.
Qed.

(** ** Ids *)

Lemma digits_then_dash (a b r1 r2 : string) :
  (∀ c, In c (list_ascii_of_string a) -> c ≠ "-"%char) ->
  (∀ c, In c (list_ascii_of_string b) -> c ≠ "-"%char) ->
  (a ++ "-" ++ r1)%string = (b ++ "-" ++ r2)%string -> a = b ∧ r1 = r2.
Proof.
  revert b. induction a as [|c a IH]; intros [|c' b] Ha Hb E; simpl in E.
  - by inv E.
  - inv E. destruct (Hb "-"%char); [by left|done].
  - inv E. destruct (Ha "-"%char); [by left|done].
  - inv E. destruct (IH b) as [-> ->]; [| |done|done].
    + intros x Hx. apply Ha. by right.
    + intros x Hx. apply Hb. by right.
Qed.

Lemma decimal_no_dash n c :
  In c (list_ascii_of_string (decimal n)) -> c ≠ "-"%char.
Proof.
  unfold decimal, NilZero.string_of_uint.
  assert (Hne : ∀ u, In c (list_ascii_of_string (NilEmpty.string_of_uint u)) ->
                c ≠ "-"%char).
  { induction u; simpl; intros Hin; try done;
      destruct Hin as [<-|Hin]; try done; by apply IHu. }
  destruct (N.to_uint n) eqn:E; try (rewrite <- E; apply Hne).
  simpl. intros [<-|[]]. done.
Qed.

Lemma decimal_inj n n' : decimal n = decimal n' -> n = n'.
Proof.
  assert (Hnn : ∀ m, N.to_uint m ≠ Decimal.Nil).
  { intros [|p]; [done|]. apply DecimalPos.Unsigned.to_uint_nonnil. }
  unfold decimal. intros E. apply DecimalN.Unsigned.to_uint_inj.
  pose proof (NilZero.usu _ (Hnn n)) as H1. pose proof (NilZero.usu _ (Hnn n')) as H2.
  rewrite E in H1. congruence.
Qed.

(** X9.  Two generated ids are equal only if they were generated in the
    same millisecond with the same random suffix; an enqueue can thus hit
    an occupied key in no other case. *)
Theorem make_id_inj h h' :
  make_id h = make_id h' <-> now1 h = now1 h' ∧ random36 h = random36 h'.
Proof.
  unfold make_id. split.
  - intros E. apply digits_then_dash in E as [E ->]; try apply decimal_no_dash.
    split; [|done]. by apply decimal_inj.
  - by intros [-> ->].
Qed.

(** * The entity caches *)

Lemma cache_get_put_eq k v (c : list (string * Data)) :
  cache_get k (cache_put k v c) = Some v.
Proof.
  induction c as [|[k' v'] c IH]; simpl.
  - by rewrite String.eqb_refl.
  - destruct (String.eqb k k') eqn:E; simpl.
    + by rewrite String.eqb_refl.
    + destruct (String.ltb k k'); simpl.
      * by rewrite String.eqb_refl.
      * by rewrite E.
Qed.

Lemma cache_get_put_ne k k' v (c : list (string * Data)) :
  k ≠ k' -> cache_get k' (cache_put k v c) = cache_get k' c.
Proof.
  intros Hne.
  assert (Hkk : String.eqb k' k = false) by (apply String.eqb_neq; congruence).
  induction c as [|[k0 v0] c IH]; simpl.
  - by rewrite Hkk.
  - destruct (String.eqb k k0) eqn:E; simpl.
    + apply String.eqb_eq in E as <-. by rewrite !Hkk.
    + destruct (String.ltb k k0); simpl.
      * by rewrite Hkk.
      * destruct (String.eqb k' k0); [done|apply IH].
Qed.

Lemma elem_of_cache_put k v (c : list (string * Data)) : (k, v) ∈ cache_put k v c.
Proof.
  induction c as [|[k0 v0] c IH]; simpl; [by left|].
  destruct (String.eqb k k0); [by left|].
  destruct (String.ltb k k0); [by left|]. by right.
Qed.

Lemma ensure_open_spec opens (st : offline) :
  caches (snd (ensure_open opens st)) = caches st ∧
  disk (queue (snd (ensure_open opens st))) = disk (queue st) ∧
  (db (queue st) ≠ None -> ensure_open opens st = (Done (), st)) ∧
  (fst (ensure_open opens st) = Done () -> db (queue (snd (ensure_open opens st))) ≠ None) ∧
  (db (queue st) ≠ None ∨ opens = true -> fst (ensure_open opens st) = Done ()).
Proof.
  unfold ensure_open. destruct st as [q c]. simpl.
  destruct (db q) as [hd|] eqn:Hdb; simpl.
  - rewrite Hdb. split_and!; done.
  - unfold init. destruct opens; simpl; split_and!; try done. by intros [|].
Qed.

Lemma store_resolved opens puts storeName data st st1 :
  storeOffline opens puts storeName data st = Some (Done (), st1) ->
  ∃ k hd, entity_id data = Some k ∧ storeName ∈ entityStoreNames ∧
    storeName ≠ "syncQueue"%string ∧ db (queue st1) = Some hd ∧
    cache_of st1 storeName = cache_put k (entity_body data) (cache_of st storeName).
Proof.
  intros Hput. unfold storeOffline in Hput.
  destruct (decide (storeName = "syncQueue"%string)) as [|Hsq]; [done|].
  apply (inj Some) in Hput.
  destruct (ensure_open_spec opens st) as (Hc & _ & _ & _ & _).
  destruct (ensure_open opens st) as [[[]|e] st0]; [|done]. simpl in Hc.
  destruct (db (queue st0)) as [hd|] eqn:Hdb; [|done].
  destruct (decide (storeName ∈ entityStoreNames)) as [Hin|]; [|done].
  destruct (entity_id data) as [k|]; [|done].
  destruct puts; [|done]. simplify_eq.
  exists k, hd. split_and!; try done.
  unfold cache_of. simpl. by rewrite lookup_insert_eq, Hc.
Qed.

(** X10.  What [storeOffline] stored under an id, [getOffline] with that
    id returns, until the id is stored again: a resolved [storeOffline]
    of an object with a non-empty id into a cache, followed by
    [getOffline] of the same cache and id, yields that object, whatever
    was stored under the id before. *)
Theorem store_then_get opens puts opens' storeName data k st st1 :
  storeOffline opens puts storeName data st = Some (Done (), st1) ->
  entity_id data = Some k -> k ≠ ""%string ->
  getOffline opens' true storeName (Some k) st1
    = (Done (OneEntity (Some (entity_body data))), st1).
Proof.
  intros Hput Hk Hne.
  destruct (store_resolved _ _ _ _ _ _ Hput) as (k' & hd & Hk' & Hin & Hsq & Hdb & Hc).
  assert (k' = k) as -> by congruence.
  unfold getOffline, ensure_open. rewrite Hdb. simpl. rewrite Hdb.
  rewrite decide_False, decide_True by done.
  assert (String.eqb k "" = false) as -> by (by apply String.eqb_neq).
  by rewrite Hc, cache_get_put_eq.
Qed.

(** X11.  [storeOffline] touches one key of one cache.  Whatever its
    outcome, the queue's store is unchanged, the other caches are
    unchanged, every other id of the addressed cache still yields what it
    yielded, and the queue's array is unchanged when the service was
    already initialised; when it rejects, no cache has changed. *)
Theorem store_offline_frame opens puts storeName data st r st1 :
  storeOffline opens puts storeName data st = Some (r, st1) ->
  disk (queue st1) = disk (queue st) ∧
  (db (queue st) ≠ None -> queue st1 = queue st) ∧
  (∀ n, n ≠ storeName -> cache_of st1 n = cache_of st n) ∧
  (∀ k', entity_id data ≠ Some k' ->
     cache_get k' (cache_of st1 storeName) = cache_get k' (cache_of st storeName)) ∧
  (∀ e, r = Failed e -> caches st1 = caches st).
Proof.
  intros Hput. unfold storeOffline in Hput.
  destruct (decide (storeName = "syncQueue"%string)) as [|Hsq]; [done|].
  apply (inj Some) in Hput.
  destruct (ensure_open_spec opens st) as (Hc & Hd & Hsame & _ & _).
  assert (Hq : db (queue st) ≠ None -> queue (snd (ensure_open opens st)) = queue st).
  { intros Hdb. by rewrite (Hsame Hdb). }
  destruct (ensure_open opens st) as [r0 st0]. simpl in Hc, Hd, Hq. clear Hsame.
  assert (Hsame0 : ∀ n, cache_of st0 n = cache_of st n).
  { intros n. unfold cache_of. by rewrite Hc. }
  assert (Hkeep : ∀ r', (r', st0) = (r, st1) ->
    disk (queue st1) = disk (queue st) ∧
    (db (queue st) ≠ None -> queue st1 = queue st) ∧
    (∀ n, n ≠ storeName -> cache_of st1 n = cache_of st n) ∧
    (∀ k', entity_id data ≠ Some k' ->
       cache_get k' (cache_of st1 storeName) = cache_get k' (cache_of st storeName)) ∧
    (∀ e, r = Failed e -> caches st1 = caches st)).
  { intros r' E. simplify_eq. split_and!; try done. intros. by rewrite Hsame0. }
  destruct r0 as [[]|e]; [|by apply (Hkeep (Failed e))].
  destruct (db (queue st0)) as [hd|]; [|by apply (Hkeep (Failed NotInitialized))].
  destruct (decide (storeName ∈ entityStoreNames)); [|by apply (Hkeep (Failed NotFoundError))].
  destruct (entity_id data) as [k|] eqn:Hk; [|by apply (Hkeep (Failed DataError))].
  destruct puts; [|by apply (Hkeep (Failed StoreRequestError))].
  simplify_eq. simpl. split_and!; try done.
  - intros n Hn. unfold cache_of at 1. simpl. rewrite lookup_insert_ne by done.
    apply Hsame0.
  - intros k' Hk'. unfold cache_of at 1. simpl. rewrite lookup_insert_eq. simpl.
    rewrite cache_get_put_ne by congruence. by rewrite Hsame0.
Qed.

(** X13.  [getOffline] only reads: it never changes a cache or the
    queue's store, and on an initialised service it leaves the whole
    state as it is.  For an id under which nothing is stored it resolves
    with [undefined]; it rejects for a store that does not exist. *)
Theorem get_offline_reads opens reads storeName key_arg st :
  caches (snd (getOffline opens reads storeName key_arg st)) = caches st ∧
  disk (queue (snd (getOffline opens reads storeName key_arg st))) = disk (queue st) ∧
  (db (queue st) ≠ None -> snd (getOffline opens reads storeName key_arg st) = st) ∧
  (db (queue st) ≠ None ∨ opens = true ->
     (storeName ∈ entityStoreNames -> reads = true ->
      ∀ k, key_arg = Some k -> k ≠ ""%string ->
        cache_get k (cache_of st storeName) = None ->
        fst (getOffline opens reads storeName key_arg st) = Done (OneEntity None)) ∧
     (storeName ∉ "syncQueue"%string :: entityStoreNames ->
        fst (getOffline opens reads storeName key_arg st) = Failed NotFoundError)).
Proof.
  unfold getOffline.
  destruct (ensure_open_spec opens st) as (Hc & Hd & Hsame & Hdb & Hdone).
  assert (Hst : db (queue st) ≠ None -> snd (ensure_open opens st) = st).
  { intros Hne. by rewrite (Hsame Hne). }
  destruct (ensure_open opens st) as [[[]|e] st0]; simpl in *.
  2:{ split_and!; try done. intros Ho. by specialize (Hdone Ho). }
  destruct (db (queue st0)) as [hd|]; [|by destruct Hdb].
  assert (Hco : cache_of st0 storeName = cache_of st storeName)
    by (unfold cache_of; by rewrite Hc).
  split_and!.
  - repeat case_match; done.
  - repeat case_match; done.
  - intros Hne. repeat case_match; simpl; by apply Hst.
  - intros _. split.
    + intros Hin -> k -> Hk Hnone.
      assert (String.eqb k "" = false) as -> by (by apply String.eqb_neq).
      rewrite decide_False, decide_True; [by rewrite Hco, Hnone|done|].
      intros ->. unfold entityStoreNames in Hin.
      repeat (apply elem_of_cons in Hin as [Hin|Hin]; [done|]).
      by apply not_elem_of_nil in Hin.
    + intros Hnin. apply not_elem_of_cons in Hnin as [Hsq Hnin].
      by rewrite !decide_False.
Qed.

(** X14.  An object stored under the empty string cannot be fetched by
    its id: [getOffline] takes the empty id for a missing one and
    resolves with the array of all objects of the cache, which contains
    the object. *)
Theorem empty_id_fetches_all opens puts opens' storeName data st st1 :
  storeOffline opens puts storeName data st = Some (Done (), st1) ->
  entity_id data = Some ""%string ->
  getOffline opens' true storeName (Some ""%string) st1
    = getOffline opens' true storeName None st1 ∧
  ∃ os, getOffline opens' true storeName (Some ""%string) st1
          = (Done (AllEntities os), st1) ∧
        entity_body data ∈ os.
Proof.
  intros Hput Hk. split; [done|].
  destruct (store_resolved _ _ _ _ _ _ Hput) as (k' & hd & Hk' & Hin & Hsq & Hdb & Hc).
  assert (k' = ""%string) as -> by congruence.
  unfold getOffline, ensure_open. rewrite Hdb. simpl. rewrite Hdb.
  rewrite decide_False, decide_True by done.
  eexists. split; [done|]. rewrite Hc.
  apply list_elem_of_fmap. exists (""%string, entity_body data). split; [done|].
  apply elem_of_cache_put.
Qed.

(** X15.  [getOffline] of the queue's own store, without id, yields the
    stored records, each with its retry counter at 0, whatever the
    counters in memory are.  They are the operations of [getSyncQueue]
    whenever no load is pending or the array is not empty; in the
    remaining case, a start whose load is not answered yet, they are the
    operations the array holds once it is. *)
Theorem get_offline_queue_store opens st :
  reachable (queue st) -> db (queue st) ≠ None ->
  ∃ os, getOffline opens true "syncQueue" None st = (Done (AllOperations os), st) ∧
    Forall (λ r, retries r = 0) os ∧
    (loading (queue st) = 0%nat ∨ getSyncQueue (queue st) ≠ [] ->
       os ≡ₚ reset_retries <$> contents (queue st)) ∧
    os ≡ₚ reset_retries <$> contents (settle (queue st)).
Proof.
  intros Hr Hdb. pose proof (reachable_consistent _ Hr) as Hc.
  exists (disk (queue st)). split_and!.
  - unfold getOffline, ensure_open.
    destruct (db (queue st)) as [hd|] eqn:E; [|done]. simpl. by rewrite E.
  - apply Hc.
  - intros Hor. symmetry. by apply co_mirror_perm.
  - destruct (settle_spec (queue st)) as (Hd & Hdb' & _).
    rewrite <- Hd. symmetry. apply mirror_perm; [by apply wf_settle|congruence].
Qed.

(** * The pending count and the indicator *)

Lemma length_filter_one {A} (g : A -> string) (k : string) (l : list A) :
  NoDup (g <$> l) -> k ∈ g <$> l ->
  S (length (filter (λ x, g x ≠ k) l)) = length l.
Proof.
  induction l as [|x l IH]; intros Hnd Hin.
  - by apply not_elem_of_nil in Hin.
  - rewrite fmap_cons in Hnd, Hin. apply NoDup_cons in Hnd as [Hx Hnd].
    destruct (decide (g x = k)) as [E|E].
    + rewrite filter_cons_False by (intros HP; by apply HP). simpl. f_equal.
      f_equal. apply filter_all. intros y Hy Ey. apply Hx. rewrite E, <- Ey.
      apply list_elem_of_fmap. eauto.
    + rewrite filter_cons_True by done. simpl. f_equal. apply IH; [done|].
      apply elem_of_cons in Hin as [Hin|Hin]; [congruence|done].
Qed.

(** X16.  The count that the hook polls is the number of queued
    operations.  With no load pending, a replay pass never raises it; a
    resolved [addToSyncQueue] on an initialised service raises it by
    exactly one; a performed removal of a queued id lowers it by exactly
    one, and one of an id that is not queued leaves it as it is. *)
Theorem pending_count_steps online f d h ty act dat k s :
  reachable s -> loading s = 0%nat ->
  updatePendingSyncs s = length (contents s) ∧
  (updatePendingSyncs (fst (syncWhenOnline online f d s)) <= updatePendingSyncs s)%nat ∧
  (db s ≠ None -> ∀ k' s', addToSyncQueue h ty act dat s = (Resolved k', s') ->
     updatePendingSyncs s' = S (updatePendingSyncs s)) ∧
  (k ∈ id <$> contents s ->
     S (updatePendingSyncs (snd (removeFromSyncQueue true k s))) = updatePendingSyncs s) ∧
  (k ∉ id <$> contents s ->
     updatePendingSyncs (snd (removeFromSyncQueue true k s)) = updatePendingSyncs s).
Proof.
  intros Hr Hld. pose proof (reachable_wf s Hr Hld) as Hwf.
  assert (Hlen : ∀ t, wf t -> updatePendingSyncs t = length (contents t)).
  { intros t Ht. unfold updatePendingSyncs, getSyncQueue.
    apply Forall2_length with (P := λ l o, heap t !! l = Some o).
    by apply contents_refs. }
  split_and!.
  - by apply Hlen.
  - destruct online; [|done].
    destruct (sync_pass f d s Hwf) as (s' & -> & _ & _ & Hq & _).
    unfold updatePendingSyncs, getSyncQueue. simpl. rewrite Hq. apply length_filter.
  - intros Hdb k' s' Hadd. destruct (db s) as [hd|] eqn:Hdbs; [|done].
    rewrite (add_open _ _ _ _ _ hd Hdbs Hld) in Hadd.
    destruct (writes h && negb (store_has (make_id h) (disk s))); [|done].
    simplify_eq. unfold updatePendingSyncs, getSyncQueue. simpl.
    rewrite length_app. simpl. lia.
  - intros Hk.
    assert (Hdb : db s ≠ None).
    { apply list_elem_of_fmap in Hk as (o & _ & Ho).
      apply elem_of_contents in Ho as (l & Hl & _). by apply (wf_open s l). }
    destruct (db s) as [hd|] eqn:Hdbs; [|done].
    rewrite (Hlen _ (wf_remove true k s Hwf)), (contents_remove k s hd Hdbs Hld), (Hlen s Hwf).
    apply length_filter_one; [by apply wf_contents_nodup|done].
  - intros Hk. destruct (db s) as [hd|] eqn:Hdbs.
    + rewrite (Hlen _ (wf_remove true k s Hwf)), (contents_remove k s hd Hdbs Hld), (Hlen s Hwf).
      f_equal. apply filter_all. intros o Ho E. apply Hk.
      apply list_elem_of_fmap. eauto.
    + unfold removeFromSyncQueue. by rewrite Hdbs.
Qed.

(** X17.  The indicator renders nothing exactly when the browser is
    online and the count is 0; offline it shows the offline banner
    whatever the count; online with a positive count it shows the syncing
    banner; its last branch, the empty box, is never rendered.  Right
    after a pass that started with no load pending and in which submit
    accepted every operation and the store performed its deletes, a poll
    makes it render nothing. *)
Theorem indicator_cases isOnline n f d s :
  reachable s -> loading s = 0%nat ->
  (OfflineIndicator isOnline n = RenderNothing <-> isOnline = true ∧ n = 0%nat) ∧
  (isOnline = false ->
     OfflineIndicator isOnline n
       = OfflineBanner "Offline Mode - Changes will sync when online") ∧
  (isOnline = true -> (0 < n)%nat -> ∃ text, OfflineIndicator isOnline n = SyncingBanner text) ∧
  OfflineIndicator isOnline n ≠ EmptyBox ∧
  ((∀ x, f x = Resolved true) -> (∀ k, d k = true) ->
     OfflineIndicator true (updatePendingSyncs (fst (syncWhenOnline true f d s)))
       = RenderNothing).
Proof.
  intros Hr Hld. unfold OfflineIndicator. split_and!.
  - destruct isOnline, n; simpl; split; try done; by intros [? ?].
  - by intros ->.
  - intros -> Hn. destruct n; [lia|]. simpl. eauto.
  - destruct isOnline, n; done.
  - intros Hf Hd. unfold updatePendingSyncs, getSyncQueue.
    by destruct (all_accepted_empties f d s Hf Hd (reachable_wf s Hr Hld)) as [-> _].
Qed.

End Facts.

(** * The concrete point of sale, checked *)

Module ShopFacts.

Import Shop.

Lemma reachable_imported : reachable imported.
Proof. unfold imported. apply reach_init, reach_new. Qed.

Lemma reachable_started : reachable started.
Proof. unfold started. apply reach_loaded, reachable_imported. Qed.

Lemma reachable_one : reachable one.
Proof. unfold one, sale. apply reach_add, reachable_started. Qed.

Lemma reachable_three : reachable three.
Proof.
  unfold three, customer, stock. apply reach_add, reach_add, reachable_one.
Qed.

Lemma wf_started : wf started.
Proof. apply reachable_wf; [apply reachable_started|reflexivity]. Qed.

Lemma wf_one : wf one.
Proof. apply reachable_wf; [apply reachable_one|reflexivity]. Qed.

Lemma wf_three : wf three.
Proof. apply reachable_wf; [apply reachable_three|reflexivity]. Qed.

Lemma contents_three : contents three = [opA; opB; opC].
Proof. vm_compute. reflexivity. Qed.

Lemma started_open : db started ≠ None.
Proof. done. Qed.

(** The sale, never accepted: queued through five passes, gone with the
    sixth. *)
Lemma bounded_retry_witness :
  (∀ n, (n <= 5)%nat ->
     0%nat ∈ syncQueue (replays n rejects_all store_ok one) ∧
     retries <$> (heap (replays n rejects_all store_ok one) !! 0%nat)
       = Some (0 + N.of_nat n)) ∧
  (0%nat ∉ syncQueue (replays 6 rejects_all store_ok one)) ∧
  (id opA ∉ id <$> disk (replays 6 rejects_all store_ok one)) ∧
  (retries opA = 0 -> 6%nat = 6%nat).
Proof.
  apply (bounded_retry_six_passes rejects_all store_ok one 0%nat opA).
  - reflexivity.
  - reflexivity.
  - apply wf_one.
  - vm_compute. apply list_elem_of_here.
  - reflexivity.
Defined.

(** After five passes that all resolved [false] the sale is still queued,
    with [retries] 5, and its record is still in the store. *)
Lemma five_passes_keep_the_operation :
  getSyncQueue (replays 5 rejects_all store_ok one) = [0%nat] ∧
  retries <$> contents (replays 5 rejects_all store_ok one) = [5] ∧
  id <$> disk (replays 5 rejects_all store_ok one) = [id opA].
Proof. vm_compute. done. Qed.


(** Submit is called on the stock update and on the customer deletion, in
    this order; the sale was removed before the pass.  The same on a
    service that the first enqueue has to initialise, and with all three
    operations queued. *)
Lemma all_accepted_calls :
  survivors (snd (run shift imported)) = [opB; opC] ∧
  snd (syncWhenOnline true accepts_all store_ok (fst (run shift imported))) = [opB; opC] ∧
  snd (syncWhenOnline true accepts_all store_ok (fst (run shift (construct []))))
    = [opB; opC] ∧
  snd (syncWhenOnline true accepts_all store_ok three) = [opA; opB; opC].
Proof. vm_compute. done. Qed.

Lemma partial_failure_witness :
  snd (syncWhenOnline true rejects_B store_ok three) = [opA; opB; opC] ∧
  contents (fst (syncWhenOnline true rejects_B store_ok three)) = [incr_retries opB] ∧
  retries (incr_retries opB) = 1 ∧
  (id opA ∉ id <$> disk (fst (syncWhenOnline true rejects_B store_ok three))) ∧
  (id opC ∉ id <$> disk (fst (syncWhenOnline true rejects_B store_ok three))).
Proof.
  apply (partial_failure_isolated rejects_B store_ok three opA opB opC).
  - apply wf_three.
  - vm_compute. reflexivity.
  - vm_compute. reflexivity.
  - vm_compute. reflexivity.
  - vm_compute. reflexivity.
  - reflexivity.
  - reflexivity.
Defined.

Lemma one_attempt_witness :
  snd (syncWhenOnline true rejects_B store_ok three) = contents three ∧
  NoDup (id <$> snd (syncWhenOnline true rejects_B store_ok three)).
Proof.
  apply (one_attempt_per_pass true rejects_B store_ok three).
  apply wf_three.
Defined.

Lemma store_frame_witness :
  disk (fst (syncWhenOnline true rejects_all store_ok three)) `sublist_of` disk three ∧
  disk (replays 3 rejects_all store_ok three) `sublist_of` disk three ∧
  (∀ o, o ∈ contents (replays 3 rejects_all store_ok three) ->
     reset_retries o ∈ disk (replays 3 rejects_all store_ok three)) ∧
  Forall (λ r, retries r = 0) (disk (replays 3 rejects_all store_ok three)) ∧
  disk (reload true (replays 3 rejects_all store_ok three))
    = disk (replays 3 rejects_all store_ok three) ∧
  contents (loadSyncQueue_onsuccess (reload true (replays 3 rejects_all store_ok three)))
    = disk (replays 3 rejects_all store_ok three) ∧
  Forall (λ o, retries o = 0)
    (contents (loadSyncQueue_onsuccess (reload true (replays 3 rejects_all store_ok three)))).
Proof.
  apply (replay_only_deletes_from_store true rejects_all store_ok 3 three).
  apply wf_consistent, wf_three.
Defined.

(** In memory the counters stand at 3 before the reload; the records
    carry 0, and so does the array once the load of the restarted
    service is answered. *)
Lemma counters_before_reload :
  retries <$> contents (replays 3 rejects_all store_ok three) = [3; 3; 3] ∧
  retries <$> disk (replays 3 rejects_all store_ok three) = [0; 0; 0] ∧
  contents (reload true (replays 3 rejects_all store_ok three)) = [] ∧
  retries <$> contents (loadSyncQueue_onsuccess
                          (reload true (replays 3 rejects_all store_ok three)))
    = [0; 0; 0].
Proof. vm_compute. done. Qed.

Lemma fifo_witness :
  contents (fst (run shift started)) =
    filter (λ o, id o ∉ removed_in (snd (run shift started))) (contents started)
      ++ survivors (snd (run shift started)) ∧
  ∀ online f d,
    reset_retries <$> contents (fst (syncWhenOnline online f d (fst (run shift started))))
      `sublist_of` reset_retries <$> contents (fst (run shift started)).
Proof.
  apply (fifo_order shift started).
  - apply wf_started.
  - apply started_open.
Defined.

Lemma shift_leaves_B_then_C : contents (fst (run shift started)) = [opB; opC].
Proof. vm_compute. done. Qed.

(** Removing an id nobody queued, twice. *)
Lemma remove_witness :
  ("1600000000000-unrelated" ∉ id <$> contents three ->
     snd (removeFromSyncQueue true "1600000000000-unrelated" three) = three) ∧
  (fst (removeFromSyncQueue true "1600000000000-unrelated" three) = Resolved () ->
     snd (removeFromSyncQueue true "1600000000000-unrelated"
            (snd (removeFromSyncQueue true "1600000000000-unrelated" three)))
     = snd (removeFromSyncQueue true "1600000000000-unrelated" three)) ∧
  (true = true ->
     fst (removeFromSyncQueue true "1600000000000-unrelated" three) = Resolved ()).
Proof.
  apply (remove_idempotent true true "1600000000000-unrelated" three).
  apply wf_three.
Defined.

(** Removing the stock update twice: the second call changes nothing. *)
Lemma remove_twice :
  id <$> contents (snd (removeFromSyncQueue true (id opB) three)) = [id opA; id opC] ∧
  snd (removeFromSyncQueue true (id opB) (snd (removeFromSyncQueue true (id opB) three)))
    = snd (removeFromSyncQueue true (id opB) three).
Proof. vm_compute. done. Qed.

(** The sale after five refusals, and a submit that throws on the sixth
    attempt. *)
Lemma thrown_submit_witness :
  0%nat ∈ syncQueue
    (fst (syncWhenOnline true throws store_ok (replays 5 rejects_all store_ok one))) ∧
  heap (fst (syncWhenOnline true throws store_ok (replays 5 rejects_all store_ok one)))
    !! 0%nat = Some (incr_retries (Nat.iter 5 incr_retries opA)) ∧
  id (Nat.iter 5 incr_retries opA) ∈
    id <$> disk (fst (syncWhenOnline true throws store_ok
                        (replays 5 rejects_all store_ok one))).
Proof.
  apply (thrown_submit_never_removes throws store_ok
           (replays 5 rejects_all store_ok one) 0%nat
           (Nat.iter 5 incr_retries opA) CallerError).
  - apply wf_replays, wf_one.
  - vm_compute. apply list_elem_of_here.
  - vm_compute. reflexivity.
  - reflexivity.
Defined.

(** The same state and attempt under the two answers: a rejection leaves
    the sale queued with [retries] 6, a [false] removes it. *)
Lemma thrown_differs_from_false :
  retries <$> contents
    (fst (syncWhenOnline true throws store_ok (replays 5 rejects_all store_ok one))) = [6] ∧
  contents
    (fst (syncWhenOnline true rejects_all store_ok (replays 5 rejects_all store_ok one))) = [].
Proof. vm_compute. done. Qed.

Lemma round_trip_witness :
  contents three = [opA; opB; opC] ∧
  getSyncQueue (reload true three) = [] ∧
  loading (reload true three) = 1%nat ∧
  disk (reload true three) ≡ₚ [opA; opB; opC] ∧
  contents (loadSyncQueue_onsuccess (reload true three)) ≡ₚ [opA; opB; opC] ∧
  StronglySorted key_lt (contents (loadSyncQueue_onsuccess (reload true three))) ∧
  Forall (λ o, retries o = 0) (contents (loadSyncQueue_onsuccess (reload true three))) ∧
  (String.ltb (id opA) (id opB) = true -> String.ltb (id opB) (id opC) = true ->
     contents (loadSyncQueue_onsuccess (reload true three)) = [opA; opB; opC]).
Proof.
  apply (durability_round_trip
           (answers 1700000000000 "k3x9ab0q1") ty_transaction act_create "{total: 12}"
           (answers 1700000000007 "a1b2cd3e4") ty_inventory act_update "{sku: 7, qty: 3}"
           (answers 1700000000012 "zz81mma0p") ty_customer act_delete "{id: 44}"
           started (id opA) one (id opB) (snd (stock one)) (id opC) three).
  - apply wf_consistent, wf_started.
  - reflexivity.
  - vm_compute. reflexivity.
  - vm_compute. reflexivity.
  - vm_compute. reflexivity.
Defined.

(** Three operations enqueued within one millisecond come back from the
    store in the order of their random suffixes, not of their enqueue:
    after the reload the array is first empty and then, once the load is
    answered, in the other order. *)
Lemma reload_reorders_burst :
  id <$> contents burst =
    ["1700000000000-zz81mma0p"; "1700000000000-k3x9ab0q1"; "1700000000000-a1b2cd3e4"] ∧
  contents (reload true burst) = [] ∧
  id <$> contents (loadSyncQueue_onsuccess (reload true burst)) =
    ["1700000000000-a1b2cd3e4"; "1700000000000-k3x9ab0q1"; "1700000000000-zz81mma0p"] ∧
  contents (loadSyncQueue_onsuccess (reload true burst)) ≠ contents burst.
Proof.
  split_and!; [vm_compute; done|vm_compute; done|vm_compute; done|].
  intros E. apply (f_equal (fmap id)) in E. vm_compute in E. discriminate E.
Qed.

(** An enqueue that has to open the database and whose add request then
    fails rejects, yet the array it leaves is the one loaded from the
    store, not the empty one from before the call. *)
Lemma rejected_enqueue_loads_queue :
  fst (addToSyncQueue disk_full ty_transaction act_create "{total: 5}" pending)
    = RejectedWith RequestError ∧
  contents pending = [] ∧
  contents (snd (addToSyncQueue disk_full ty_transaction act_create "{total: 5}" pending))
    = [opA].
Proof. vm_compute. done. Qed.

(** ** Further checks *)

Lemma three_open : db three ≠ None.
Proof. done. Qed.

Lemma sale_resolves : sale started = (Resolved (id opA), one).
Proof. vm_compute. reflexivity. Qed.

(** The page reloaded with three operations in the store: its [init] has
    resolved and its load is pending. *)
Lemma reachable_reloaded : reachable (reload true three).
Proof. unfold reload. apply reach_init, reach_reload, reachable_three. Qed.

Lemma queue_mirrors_store_witness :
  NoDup (id <$> contents (reload true three)) ∧
  (∀ k, k ∈ id <$> contents (reload true three) -> k ∈ id <$> disk (reload true three)) ∧
  (db (reload true three) = None ->
     getSyncQueue (reload true three) = [] ∧ loading (reload true three) = 0%nat) ∧
  (db (reload true three) ≠ None ->
   loading (reload true three) = 0%nat ∨ getSyncQueue (reload true three) ≠ [] ->
     (∀ k, k ∈ id <$> contents (reload true three) <-> k ∈ id <$> disk (reload true three)) ∧
     length (getSyncQueue (reload true three)) = length (disk (reload true three))) ∧
  (db (reload true three) ≠ None ->
     reset_retries <$> contents (settle (reload true three)) ≡ₚ disk (reload true three)).
Proof. apply (queue_mirrors_store (reload true three)), reachable_reloaded. Defined.

(** There the array is empty while the store holds three records. *)
Lemma reloaded_differs :
  getSyncQueue (reload true three) = [] ∧ length (disk (reload true three)) = 3%nat ∧
  contents (settle (reload true three)) = [opA; opB; opC].
Proof. vm_compute. done. Qed.

Lemma reload_restores_queue_witness :
  getSyncQueue (reload true three) = [] ∧
  contents (snd (init true three)) = contents three ∧
  loading (reload true three) = 1%nat ∧
  loading (snd (init true three)) = 1%nat ∧
  contents (loadSyncQueue_onsuccess (reload true three))
    ≡ₚ reset_retries <$> contents three ∧
  StronglySorted key_lt (contents (loadSyncQueue_onsuccess (reload true three))) ∧
  contents (loadSyncQueue_onsuccess (snd (init true three)))
    = contents (loadSyncQueue_onsuccess (reload true three)).
Proof.
  apply (reload_restores_queue three);
    [apply reachable_three|apply three_open|reflexivity].
Defined.

(** A further [init] on the running service after three refused passes:
    the counters stand at 3 when it resolves and at 0 once its load is
    answered. *)
Lemma second_init_resets_later :
  retries <$> contents (snd (init true (replays 3 rejects_all store_ok three)))
    = [3; 3; 3] ∧
  retries <$> contents (loadSyncQueue_onsuccess
                          (snd (init true (replays 3 rejects_all store_ok three))))
    = [0; 0; 0].
Proof. vm_compute. done. Qed.

Lemma enqueue_appends_witness :
  contents one =
    (match db started, loading started with
     | Some _, O => contents started
     | _, _ => disk started
     end) ++ [opA] ∧
  id opA = id opA ∧ retries opA = 0 ∧ timestamp opA = 1700000000000 ∧
  opA ∈ disk one ∧ (id opA ∉ id <$> disk started) ∧ loading one = 0%nat.
Proof.
  apply (enqueue_appends (answers 1700000000000 "k3x9ab0q1") ty_transaction act_create
           "{total: 12}" started (id opA) one).
  - apply reachable_started.
  - apply sale_resolves.
Defined.

(** An enqueue right after a reload, the load still pending: the array
    is loaded from the store first. *)
Lemma enqueue_after_reload :
  id <$> contents (snd (addToSyncQueue (answers 1700000000020 "n3wn3wn3w") ty_product
                          act_update "{sku: 2}" (reload true three)))
    = [id opA; id opB; id opC; "1700000000020-n3wn3wn3w"].
Proof. vm_compute. done. Qed.

Lemma enqueue_then_remove_witness :
  fst (removeFromSyncQueue true (id opA) one) = Resolved () ∧
  contents (snd (removeFromSyncQueue true (id opA) one)) = contents started ∧
  disk (snd (removeFromSyncQueue true (id opA) one)) = disk started.
Proof.
  apply (enqueue_then_remove (answers 1700000000000 "k3x9ab0q1") ty_transaction
           act_create "{total: 12}" started (id opA) one).
  - apply reachable_started.
  - apply started_open.
  - reflexivity.
  - apply sale_resolves.
Defined.

Lemma pass_outcome_witness :
  contents (fst (syncWhenOnline true rejects_B store_ok three)) =
  after_attempt rejects_B store_ok <$>
    filter (λ o, attempt_removes rejects_B store_ok o = false) (contents three).
Proof.
  apply (pass_outcome rejects_B store_ok three); [apply reachable_three|reflexivity].
Defined.

Lemma pass_touches_only_retries_witness :
  ∃ o', heap (fst (syncWhenOnline true rejects_all store_ok three)) !! 0%nat = Some o' ∧
    reset_retries o' = reset_retries opA ∧
    retries opA <= retries o' ∧ retries o' <= retries opA + 2.
Proof.
  apply (pass_touches_only_retries true rejects_all store_ok three 0%nat opA).
  - apply reachable_three.
  - vm_compute. reflexivity.
Defined.

Lemma accepted_but_not_deleted_witness :
  0%nat ∈ syncQueue (fst (syncWhenOnline true accepts_all store_down three)) ∧
  heap (fst (syncWhenOnline true accepts_all store_down three)) !! 0%nat
    = Some (incr_retries opA) ∧
  id opA ∈ id <$> disk (fst (syncWhenOnline true accepts_all store_down three)) ∧
  incr_retries opA ∈
    snd (syncWhenOnline true accepts_all store_ok
           (fst (syncWhenOnline true accepts_all store_down three))).
Proof.
  apply (accepted_but_not_deleted accepts_all store_down accepts_all store_ok
           three 0%nat opA).
  - apply reachable_three.
  - reflexivity.
  - vm_compute. apply list_elem_of_here.
  - vm_compute. reflexivity.
  - reflexivity.
  - reflexivity.
Defined.

Lemma throwing_submit_witness :
  0%nat ∈ syncQueue (replays 9 throws store_ok one) ∧
  retries <$> (heap (replays 9 throws store_ok one) !! 0%nat)
    = Some (retries opA + N.of_nat 9) ∧
  id opA ∈ id <$> disk (replays 9 throws store_ok one).
Proof.
  apply (throwing_submit_keeps_forever throws store_ok 9 one 0%nat opA).
  - intros x. exists CallerError. reflexivity.
  - apply reachable_one.
  - reflexivity.
  - vm_compute. apply list_elem_of_here.
  - vm_compute. reflexivity.
Defined.

Lemma tea_stored : storeOffline true true "products" tea backoffice = Some (Done (), with_tea).
Proof. vm_compute. reflexivity. Qed.

Lemma salt_stored :
  storeOffline true true "products" unkeyed backoffice = Some (Done (), with_salt).
Proof. vm_compute. reflexivity. Qed.

Lemma store_then_get_witness :
  getOffline true true "products" (Some "p-17") with_tea
    = (Done (OneEntity (Some (entity_body tea))), with_tea).
Proof.
  apply (store_then_get true true true "products" tea "p-17" backoffice with_tea).
  - apply tea_stored.
  - reflexivity.
  - discriminate.
Defined.

Lemma store_offline_frame_witness :
  disk (queue with_tea) = disk (queue backoffice) ∧
  (db (queue backoffice) ≠ None -> queue with_tea = queue backoffice) ∧
  (∀ n, n ≠ "products" -> cache_of with_tea n = cache_of backoffice n) ∧
  (∀ k', entity_id tea ≠ Some k' ->
     cache_get k' (cache_of with_tea "products")
       = cache_get k' (cache_of backoffice "products")) ∧
  (∀ e, Done () = Failed e -> caches with_tea = caches backoffice).
Proof.
  apply (store_offline_frame true true "products" tea backoffice (Done ()) with_tea).
  apply tea_stored.
Defined.

(** An object without an id, and a store that does not exist. *)
Lemma store_offline_rejections :
  fst <$> storeOffline true true "products"
            {| entity_id := None; entity_body := "{name: rice}" |} backoffice
    = Some (Failed DataError) ∧
  fst <$> storeOffline true true "suppliers" tea backoffice = Some (Failed NotFoundError).
Proof. vm_compute. done. Qed.

Lemma empty_id_witness :
  getOffline true true "products" (Some "") with_salt
    = getOffline true true "products" None with_salt ∧
  ∃ os, getOffline true true "products" (Some "") with_salt
          = (Done (AllEntities os), with_salt) ∧
        entity_body unkeyed ∈ os.
Proof.
  apply (empty_id_fetches_all true true true "products" unkeyed backoffice with_salt).
  - apply salt_stored.
  - reflexivity.
Defined.

Lemma get_offline_queue_store_witness :
  ∃ os, getOffline true true "syncQueue" None backoffice
          = (Done (AllOperations os), backoffice) ∧
    Forall (λ r, retries r = 0) os ∧
    (loading (queue backoffice) = 0%nat ∨ getSyncQueue (queue backoffice) ≠ [] ->
       os ≡ₚ reset_retries <$> contents (queue backoffice)) ∧
    os ≡ₚ reset_retries <$> contents (settle (queue backoffice)).
Proof.
  apply (get_offline_queue_store true backoffice).
  - apply reachable_three.
  - apply three_open.
Defined.

Lemma pending_count_witness :
  updatePendingSyncs three = length (contents three) ∧
  (updatePendingSyncs (fst (syncWhenOnline true rejects_B store_ok three))
     <= updatePendingSyncs three)%nat ∧
  (db three ≠ None -> ∀ k' s',
     addToSyncQueue (answers 1700000000020 "n3wn3wn3w") ty_product act_update "{sku: 2}"
       three = (Resolved k', s') ->
     updatePendingSyncs s' = S (updatePendingSyncs three)) ∧
  (id opB ∈ id <$> contents three ->
     S (updatePendingSyncs (snd (removeFromSyncQueue true (id opB) three)))
       = updatePendingSyncs three) ∧
  (id opB ∉ id <$> contents three ->
     updatePendingSyncs (snd (removeFromSyncQueue true (id opB) three))
       = updatePendingSyncs three).
Proof.
  apply (pending_count_steps true rejects_B store_ok (answers 1700000000020 "n3wn3wn3w")
           ty_product act_update "{sku: 2}" (id opB) three).
  - apply reachable_three.
  - reflexivity.
Defined.

(** That enqueue resolves, and the count goes from 3 to 4. *)
Lemma pending_count_after_enqueue :
  fst (addToSyncQueue (answers 1700000000020 "n3wn3wn3w") ty_product act_update "{sku: 2}"
         three) = Resolved "1700000000020-n3wn3wn3w" ∧
  updatePendingSyncs three = 3%nat ∧
  updatePendingSyncs
    (snd (addToSyncQueue (answers 1700000000020 "n3wn3wn3w") ty_product act_update
            "{sku: 2}" three)) = 4%nat.
Proof. vm_compute. done. Qed.

Lemma indicator_witness :
  (OfflineIndicator true 2 = RenderNothing <-> true = true ∧ 2%nat = 0%nat) ∧
  (true = false ->
     OfflineIndicator true 2
       = OfflineBanner "Offline Mode - Changes will sync when online") ∧
  (true = true -> (0 < 2)%nat -> ∃ text, OfflineIndicator true 2 = SyncingBanner text) ∧
  OfflineIndicator true 2 ≠ EmptyBox ∧
  ((∀ x, accepts_all x = Resolved true) -> (∀ k, store_ok k = true) ->
     OfflineIndicator true
       (updatePendingSyncs (fst (syncWhenOnline true accepts_all store_ok three)))
       = RenderNothing).
Proof.
  apply (indicator_cases true 2 accepts_all store_ok three);
    [apply reachable_three|reflexivity].
Defined.

(** What the till shows with three and with one pending change. *)
Lemma indicator_texts :
  OfflineIndicator true (updatePendingSyncs three)
    = SyncingBanner "Syncing 3 pending changes..." ∧
  OfflineIndicator true (updatePendingSyncs one)
    = SyncingBanner "Syncing 1 pending change..." ∧
  OfflineIndicator false (updatePendingSyncs one)
    = OfflineBanner "Offline Mode - Changes will sync when online".
Proof. vm_compute. done. Qed.

Lemma enqueue_same_id_twice_witness :
  addToSyncQueue (answers 1700000000000 "k3x9ab0q1") ty_inventory act_update
    "{sku: 9, qty: 1}" one
    = (RejectedWith RequestError, one).
Proof.
  apply (enqueue_same_id_twice (answers 1700000000000 "k3x9ab0q1")
           (answers 1700000000000 "k3x9ab0q1") ty_transaction act_create "{total: 12}"
           ty_inventory act_update "{sku: 9, qty: 1}" started (id opA) one).
  - apply reachable_started.
  - apply sale_resolves.
  - reflexivity.
  - reflexivity.
Defined.

End ShopFacts.
